(** * QNET: conversion of symbolic expressions to numerical objects

    A shallow embedding of [qnet/convert/to_qutip.py].  The symbolic
    layers the converter consumes (Hilbert spaces, operator expressions,
    scalar coefficients) are given as data types; the numerical library
    the converter calls is given a reference semantics on dense matrices
    over an idealised scalar type (exact arithmetic instead of IEEE
    floating point).  Python exceptions are values of an error type and
    the converter is a function into [result]. *)

From Stdlib Require Import List String Ascii Bool Arith Lia ZArith.
Import ListNotations.
Open Scope string_scope.
Open Scope list_scope.
Open Scope nat_scope.
Set Warnings "-register-all".

(** ** Python exceptions and results *)

Inductive ExcClass : Type :=
| ValueError
| NotImplementedError
| TypeError
| AssertionError
| AttributeError
| IndexError
| RecursionError.

Record PyErr : Type := mkErr { exc_class : ExcClass; exc_msg : string }.

Inductive result (A : Type) : Type :=
| Ok (a : A)
| Raise (e : PyErr).

Arguments Ok {A} a.
Arguments Raise {A} e.

Definition bind {A B : Type} (r : result A) (k : A -> result B) : result B :=
  match r with
  | Ok a => k a
  | Raise e => Raise e
  end.

Notation "x <- r ;; k" := (bind r (fun x => k))
  (at level 61, r at next level, right associativity).

(** A list comprehension whose body may raise: the elements are
    evaluated left to right and the first exception ends the loop. *)
Fixpoint mapM {A B : Type} (f : A -> result B) (l : list A) : result (list B) :=
  match l with
  | [] => Ok []
  | a :: l' => b <- f a ;; bs <- mapM f l' ;; Ok (b :: bs)
  end.

Definition is_ok {A : Type} (r : result A) : bool :=
  match r with Ok _ => true | Raise _ => false end.

(** [list.index]: position of the first equal element, [ValueError]
    when there is none. *)
Fixpoint index_from {A B : Type} (eqb : A -> B -> bool) (x : B) (l : list A) (i : nat)
  : result nat :=
  match l with
  | [] => Raise (mkErr ValueError "x is not in list")
  | y :: l' => if eqb y x then Ok i else index_from eqb x l' (S i)
  end.

Definition index {A B : Type} (eqb : A -> B -> bool) (l : list A) (x : B) : result nat :=
  index_from eqb x l 0.

(** ** Hilbert spaces *)

(** Modelled from the spec: the module [qnet.algebra.hilbert_space_algebra]
    is not among the sources.  A local space has a name and a set of basis
    labels; its dimension is the number of labels. *)
Record LocalSpace : Type := mkLocalSpace {
  ls_name : string;
  ls_basis : list string
}.

Definition ls_dimension (s : LocalSpace) : nat := List.length (ls_basis s).

Definition ls_eqb (a b : LocalSpace) : bool :=
  String.eqb (ls_name a) (ls_name b) &&
  (if list_eq_dec string_dec (ls_basis a) (ls_basis b) then true else false).

(** Modelled from the spec: a composite space is the ordered list of its
    distinct local factors; the trivial space is the empty list and a local
    space the one-element list. *)
Definition HilbertSpace : Type := list LocalSpace.

Definition TrivialSpace : HilbertSpace := [].

Definition local_factors (hs : HilbertSpace) : list LocalSpace := hs.

Definition dimension (hs : HilbertSpace) : nat :=
  fold_right (fun s acc => ls_dimension s * acc) 1 hs.

Definition hs_eqb (a b : HilbertSpace) : bool :=
  (List.length a =? List.length b) && forallb (fun p => ls_eqb (fst p) (snd p)) (combine a b).

Definition is_tensor_factor_of (a b : HilbertSpace) : bool :=
  forallb (fun s => existsb (ls_eqb s) b) a.

(** Modelled from the spec: the tensor product keeps the factors in
    canonical order (sorted by name) and without duplicates. *)
Fixpoint hs_insert (s : LocalSpace) (hs : HilbertSpace) : HilbertSpace :=
  match hs with
  | [] => [s]
  | h :: t =>
      if ls_eqb s h then hs
      else if String.leb (ls_name s) (ls_name h) then s :: hs
      else h :: hs_insert s t
  end.

Definition hs_tensor (a b : HilbertSpace) : HilbertSpace :=
  fold_right hs_insert b a.

Definition hs_remove (s : LocalSpace) (hs : HilbertSpace) : HilbertSpace :=
  filter (fun h => negb (ls_eqb s h)) hs.

(** ** Scalars *)

(** Complex numbers, idealised: the laws are those of exact arithmetic. *)
Class Scalars : Type := {
  C : Type;
  c0 : C;
  c1 : C;
  cadd : C -> C -> C;
  cmul : C -> C -> C;
  cconj : C -> C;
  ceqb : C -> C -> bool;
  ceqb_eq : forall a b, ceqb a b = true <-> a = b;
  cmul_1_l : forall c, cmul c1 c = c
}.

Section Symbolic.
Context `{Sc : Scalars}.

(** The symbolic substrate (sympy): scalar expressions over symbols. *)
Inductive SExpr : Type :=
| SNum (c : C)
| SSymbol (name : string)
| SAdd (a b : SExpr)
| SMul (a b : SExpr).

Fixpoint free_symbols (e : SExpr) : list string :=
  match e with
  | SNum _ => []
  | SSymbol x => [x]
  | SAdd a b => free_symbols a ++ free_symbols b
  | SMul a b => free_symbols a ++ free_symbols b
  end.

Fixpoint subs1 (x : string) (v : SExpr) (e : SExpr) : SExpr :=
  match e with
  | SNum c => SNum c
  | SSymbol y => if String.eqb x y then v else SSymbol y
  | SAdd a b => SAdd (subs1 x v a) (subs1 x v b)
  | SMul a b => SMul (subs1 x v a) (subs1 x v b)
  end.

(** [e.subs(args)] for a dictionary of numerical values. *)
Definition subs (args : list (string * C)) (e : SExpr) : SExpr :=
  fold_left (fun acc kv => subs1 (fst kv) (SNum (snd kv)) acc) args e.

(** Numerical value of an expression, when it has no free symbol. *)
Fixpoint evalf (e : SExpr) : option C :=
  match e with
  | SNum c => Some c
  | SSymbol _ => None
  | SAdd a b =>
      match evalf a, evalf b with
      | Some x, Some y => Some (cadd x y)
      | _, _ => None
      end
  | SMul a b =>
      match evalf a, evalf b with
      | Some x, Some y => Some (cmul x y)
      | _, _ => None
      end
  end.

(** [complex(e)] *)
Definition complex (e : SExpr) : result C :=
  match evalf e with
  | Some c => Ok c
  | None => Raise (mkErr TypeError "can't convert expression to complex")
  end.

(** [lambdify(x, e)]: the function of one argument that evaluates [e]
    with [x] bound to the argument; the value is a number when no other
    symbol is left. *)
Definition lambdify (x : string) (e : SExpr) : C -> SExpr :=
  fun v =>
    let e' := subs1 x (SNum v) e in
    match evalf e' with
    | Some c => SNum c
    | None => e'
    end.


Fixpoint SExpr_eqb (a b : SExpr) : bool :=
  match a, b with
  | SNum x, SNum y => ceqb x y
  | SSymbol x, SSymbol y => String.eqb x y
  | SAdd a1 a2, SAdd b1 b2 => SExpr_eqb a1 b1 && SExpr_eqb a2 b2
  | SMul a1 a2, SMul b1 b2 => SExpr_eqb a1 b1 && SExpr_eqb a2 b2
  | _, _ => false
  end.

(** Equality of Python sets of symbols. *)
Definition set_eqb (a b : list string) : bool :=
  forallb (fun x => existsb (String.eqb x) b) a &&
  forallb (fun x => existsb (String.eqb x) a) b.

End Symbolic.

(** ** Dense matrices and the numerical library *)

Section Numeric.
Context `{Sc : Scalars}.

Definition Matrix : Type := list (list C).

Fixpoint zip_with {A B D : Type} (f : A -> B -> D) (l : list A) (m : list B) : list D :=
  match l, m with
  | a :: l', b :: m' => f a b :: zip_with f l' m'
  | _, _ => []
  end.

Definition nrows (M : Matrix) : nat := List.length M.

Definition ncols (M : Matrix) : nat :=
  match M with
  | [] => 0
  | r :: _ => List.length r
  end.

Definition mat_zeros (r c : nat) : Matrix := repeat (repeat c0 c) r.

Definition mat_eye (n : nat) : Matrix :=
  map (fun i => map (fun j => if i =? j then c1 else c0) (seq 0 n)) (seq 0 n).

Definition mat_diag (d : list C) : Matrix :=
  map (fun i => map (fun j => if i =? j then nth i d c0 else c0)
                    (seq 0 (List.length d)))
      (seq 0 (List.length d)).

(** Column vector with a single one, at row [i]. *)
Definition basis_data (n i : nat) : Matrix :=
  map (fun k => [if k =? i then c1 else c0]) (seq 0 n).

Definition mat_scale (c : C) (M : Matrix) : Matrix := map (map (cmul c)) M.

Definition mat_add (A B : Matrix) : Matrix := zip_with (zip_with cadd) A B.

Definition mat_transpose (M : Matrix) : Matrix :=
  map (fun j => map (fun row => nth j row c0) M) (seq 0 (ncols M)).

Definition mat_dag (M : Matrix) : Matrix := map (map cconj) (mat_transpose M).

Definition dot (u v : list C) : C := fold_right cadd c0 (zip_with cmul u v).

Definition mat_mul (A B : Matrix) : Matrix :=
  map (fun row => map (fun col => dot row col) (mat_transpose B)) A.

(** Kronecker product. *)
Definition mat_kron (A B : Matrix) : Matrix :=
  flat_map (fun ra => map (fun rb => flat_map (fun a => map (cmul a) rb) ra) B) A.

(** [qutip.Qobj]: the matrix, the dimensions of the tensor factors (rows
    and columns), the Hermiticity flag and the kind of object. *)
Record Qobj : Type := mkQobj {
  data : Matrix;
  dims : list nat * list nat;
  isherm : bool;
  type : string
}.

(** [==] on quantum objects compares dimensions and matrix entries. *)
Definition Qobj_eq (a b : Qobj) : Prop := data a = data b /\ dims a = dims b.

Fixpoint list_nat_eqb (a b : list nat) : bool :=
  match a, b with
  | [], [] => true
  | x :: a', y :: b' => (x =? y) && list_nat_eqb a' b'
  | _, _ => false
  end.

Definition dims_eqb (a b : list nat * list nat) : bool :=
  list_nat_eqb (fst a) (fst b) && list_nat_eqb (snd a) (snd b).

Definition all_ones (l : list nat) : bool := forallb (fun n => n =? 1) l.

Definition type_of_dims (d : list nat * list nat) : string :=
  if all_ones (snd d) then (if all_ones (fst d) then "oper" else "ket")
  else if all_ones (fst d) then "bra"
  else "oper".

(** What the converter is not told about the numerical library: the
    functions of floating-point analysis it calls. *)
Class Qutip : Type := {
  (** [arange(n)[k]] as a complex number *)
  c_of_nat : nat -> C;
  (** square roots in the ladder operators *)
  sqrt_nat : nat -> C;
  (** [cos(z) + 1j * sin(z)] *)
  cis : C -> C;
  (** the Hermiticity test applied to a matrix *)
  check_herm : Matrix -> bool;
  (** addition of a nonzero number to a quantum object *)
  scalar_add : C -> Qobj -> Qobj;
  (** matrix of [qutip.displace(n, alpha)], [alpha] as it is passed *)
  displace_data : nat -> SExpr -> Matrix;
  (** column of [qutip.coherent(n, alpha)] *)
  coherent_data : nat -> C -> Matrix;
  (** [scipy.linalg.pinv] *)
  pinv : Matrix -> Matrix;
  (** [scipy.linalg.svd]: [(U, s, Vh)] *)
  svd : Matrix -> Matrix * list C * Matrix;
  (** the literal [1e-8] *)
  c_1e_8 : C;
  (** [<] on real floating-point numbers *)
  cltb : C -> C -> bool
}.

Context `{Qt : Qutip}.

(** [qutip.Qobj(arr)] *)
Definition Qobj_of_array (M : Matrix) : Qobj :=
  {| data := M;
     dims := ([nrows M], [ncols M]);
     isherm := check_herm M;
     type := type_of_dims ([nrows M], [ncols M]) |}.

Definition qeye (n : nat) : Qobj :=
  {| data := mat_eye n; dims := ([n], [n]); isherm := true; type := "oper" |}.

(** [qutip.Qobj(csr_matrix((n, n)))] *)
Definition qzeros (n : nat) : Qobj := Qobj_of_array (mat_zeros n n).

Definition basis (n i : nat) : result Qobj :=
  if i <? n then
    Ok {| data := basis_data n i; dims := ([n], [1]); isherm := false; type := "ket" |}
  else Raise (mkErr ValueError "basis vector index need to be in n <= N-1").

Definition destroy (n : nat) : Qobj :=
  {| data := map (fun i => map (fun j => if j =? S i then sqrt_nat j else c0) (seq 0 n))
                 (seq 0 n);
     dims := ([n], [n]); isherm := false; type := "oper" |}.

Definition create (n : nat) : Qobj :=
  {| data := map (fun i => map (fun j => if i =? S j then sqrt_nat i else c0) (seq 0 n))
                 (seq 0 n);
     dims := ([n], [n]); isherm := false; type := "oper" |}.

Definition displace (n : nat) (alpha : SExpr) : Qobj :=
  {| data := displace_data n alpha; dims := ([n], [n]); isherm := false; type := "oper" |}.

Definition coherent (n : nat) (alpha : C) : Qobj :=
  {| data := coherent_data n alpha; dims := ([n], [1]); isherm := false; type := "ket" |}.

Definition qdag (q : Qobj) : Qobj :=
  {| data := mat_dag (data q);
     dims := (snd (dims q), fst (dims q));
     isherm := isherm q;
     type := type_of_dims (snd (dims q), fst (dims q)) |}.

Definition smul (c : C) (q : Qobj) : Qobj :=
  {| data := mat_scale c (data q);
     dims := dims q;
     isherm := check_herm (mat_scale c (data q));
     type := type q |}.

Definition qmul (a b : Qobj) : result Qobj :=
  if list_nat_eqb (snd (dims a)) (fst (dims b)) then
    Ok {| data := mat_mul (data a) (data b);
          dims := (fst (dims a), snd (dims b));
          isherm := check_herm (mat_mul (data a) (data b));
          type := type_of_dims (fst (dims a), snd (dims b)) |}
  else Raise (mkErr TypeError "Incompatible Qobj shapes").

Definition qadd (a b : Qobj) : result Qobj :=
  if dims_eqb (dims a) (dims b) then
    Ok {| data := mat_add (data a) (data b);
          dims := dims a;
          isherm := check_herm (mat_add (data a) (data b));
          type := type a |}
  else Raise (mkErr TypeError "Incompatible quantum object dimensions").

Definition kron2 (a b : Qobj) : Qobj :=
  {| data := mat_kron (data a) (data b);
     dims := (fst (dims a) ++ fst (dims b), snd (dims a) ++ snd (dims b));
     isherm := isherm a && isherm b;
     type := type_of_dims (fst (dims a) ++ fst (dims b), snd (dims a) ++ snd (dims b)) |}.

(** A Python value the converter computes with: a number (the start
    values of [sum] and [prod] are the integers 0 and 1) or a quantum
    object. *)
Inductive PyVal : Type :=
| PNum (c : C)
| PQobj (q : Qobj).

Definition py_mul (a b : PyVal) : result PyVal :=
  match a, b with
  | PNum x, PNum y => Ok (PNum (cmul x y))
  | PNum x, PQobj q => Ok (PQobj (smul x q))
  | PQobj q, PNum x => Ok (PQobj (smul x q))
  | PQobj p, PQobj q => r <- qmul p q ;; Ok (PQobj r)
  end.

Definition py_add (a b : PyVal) : result PyVal :=
  match a, b with
  | PNum x, PNum y => Ok (PNum (cadd x y))
  | PNum x, PQobj q => Ok (PQobj (if ceqb x c0 then q else scalar_add x q))
  | PQobj q, PNum x => Ok (PQobj (if ceqb x c0 then q else scalar_add x q))
  | PQobj p, PQobj q => r <- qadd p q ;; Ok (PQobj r)
  end.

(** [reduce(f, seq, start)] for an operation that may raise. *)
Fixpoint py_reduce (f : PyVal -> PyVal -> result PyVal) (l : list PyVal) (acc : PyVal)
  : result PyVal :=
  match l with
  | [] => Ok acc
  | v :: l' => acc' <- f acc v ;; py_reduce f l' acc'
  end.

(** The builtin [sum(seq, 0)]. *)
Definition py_sum (l : list PyVal) : result PyVal := py_reduce py_add l (PNum c0).

(** Modelled from the spec: [prod] of [qnet.algebra.abstract_algebra] is not
    among the sources; it multiplies the factors of a group in their
    order, as the analogue of [sum] with start value 1. *)
Definition prod (l : list PyVal) : result PyVal := py_reduce py_mul l (PNum c1).

Fixpoint as_qobjs (l : list PyVal) : option (list Qobj) :=
  match l with
  | [] => Some []
  | PQobj q :: l' =>
      match as_qobjs l' with
      | Some qs => Some (q :: qs)
      | None => None
      end
  | PNum _ :: _ => None
  end.

(** [qutip.tensor] of the argument list *)
Definition tensor (args : list PyVal) : result PyVal :=
  match args with
  | [] => Raise (mkErr TypeError "Requires at least one input argument")
  | _ =>
      match as_qobjs args with
      | None => Raise (mkErr TypeError "One of inputs is not a quantum object")
      | Some [] => Raise (mkErr TypeError "Requires at least one input argument")
      | Some (q :: qs) => Ok (PQobj (fold_left kron2 qs q))
      end
  end.

End Numeric.

(** ** Symbolic expressions *)

Section Expressions.
Context `{Sc : Scalars}.

(** The expressions the converter dispatches on, one constructor per
    class it tests with [isinstance]: the placeholders, the local
    operators, the operator operations and the ket leaves.
    [OperatorSymbol] stands for an operator of no class the converter
    knows.  The classes of the module [operator_algebra] are not among the
    sources; which class belongs to [LocalOperator] and which to
    [OperatorOperation] is read off the branches of the two helper
    functions.  Compound kets, bra-ket operations and super-operators are
    left out. *)
Inductive Expr : Type :=
| IdentityOperator
| ZeroOperator
| OperatorSymbol (label : string) (hs : HilbertSpace)
| Create (hs : LocalSpace)
| Destroy (hs : LocalSpace)
| Jz (hs : LocalSpace)
| Jplus (hs : LocalSpace)
| Jminus (hs : LocalSpace)
| Phase (hs : LocalSpace) (phi : SExpr)
| Displace (hs : LocalSpace) (alpha : SExpr)
| Squeeze (hs : LocalSpace) (eta : SExpr)
| LocalSigma (hs : LocalSpace) (op1 op2 : string)
| OperatorPlus (operands : list Expr)
| OperatorTimes (operands : list Expr)
| ScalarTimesOperator (coeff : SExpr) (term : Expr)
| Adjoint (operand : Expr)
| PseudoInverse (operand : Expr)
| NullSpaceProjector (operand : Expr)
| OperatorTrace (over_space : LocalSpace) (operand : Expr)
| BasisKet (hs : LocalSpace) (label : string)
| CoherentStateKet (hs : LocalSpace) (ampl : SExpr).

(** Modelled from the spec: [expr.space].  A leaf carries its local
    space, the placeholders have the trivial space, and the space of a
    node is the tensor closure of the spaces of its children. *)
Fixpoint space (e : Expr) : HilbertSpace :=
  match e with
  | IdentityOperator | ZeroOperator => TrivialSpace
  | OperatorSymbol _ hs => hs
  | Create hs | Destroy hs | Jz hs | Jplus hs | Jminus hs => [hs]
  | Phase hs _ | Displace hs _ | Squeeze hs _ => [hs]
  | LocalSigma hs _ _ => [hs]
  | OperatorPlus ops | OperatorTimes ops =>
      fold_right (fun o acc => hs_tensor (space o) acc) TrivialSpace ops
  | ScalarTimesOperator _ t => space t
  | Adjoint o | PseudoInverse o | NullSpaceProjector o => space o
  | OperatorTrace s o => hs_remove s (space o)
  | BasisKet hs _ | CoherentStateKet hs _ => [hs]
  end.

(** Modelled from the spec: [expr.all_symbols()], the free symbols of the
    scalar parameters and coefficients of the expression. *)
Fixpoint all_symbols (e : Expr) : list string :=
  match e with
  | Phase _ x | Displace _ x | Squeeze _ x | CoherentStateKet _ x => free_symbols x
  | OperatorPlus ops | OperatorTimes ops =>
      fold_right (fun o acc => all_symbols o ++ acc) [] ops
  | ScalarTimesOperator c t => free_symbols c ++ all_symbols t
  | Adjoint o | PseudoInverse o | NullSpaceProjector o | OperatorTrace _ o =>
      all_symbols o
  | _ => []
  end.

(** [==] on expressions is structural. *)
Fixpoint Expr_eqb (a b : Expr) : bool :=
  let fix list_eqb (l m : list Expr) : bool :=
    match l, m with
    | [], [] => true
    | x :: l', y :: m' => Expr_eqb x y && list_eqb l' m'
    | _, _ => false
    end in
  match a, b with
  | IdentityOperator, IdentityOperator => true
  | ZeroOperator, ZeroOperator => true
  | OperatorSymbol x h, OperatorSymbol y k => String.eqb x y && hs_eqb h k
  | Create h, Create k | Destroy h, Destroy k | Jz h, Jz k
  | Jplus h, Jplus k | Jminus h, Jminus k => ls_eqb h k
  | Phase h x, Phase k y | Displace h x, Displace k y | Squeeze h x, Squeeze k y
  | CoherentStateKet h x, CoherentStateKet k y => ls_eqb h k && SExpr_eqb x y
  | LocalSigma h x1 x2, LocalSigma k y1 y2 =>
      ls_eqb h k && String.eqb x1 y1 && String.eqb x2 y2
  | OperatorPlus l, OperatorPlus m | OperatorTimes l, OperatorTimes m => list_eqb l m
  | ScalarTimesOperator c x, ScalarTimesOperator d y => SExpr_eqb c d && Expr_eqb x y
  | Adjoint x, Adjoint y | PseudoInverse x, PseudoInverse y
  | NullSpaceProjector x, NullSpaceProjector y => Expr_eqb x y
  | OperatorTrace s x, OperatorTrace t y => ls_eqb s t && Expr_eqb x y
  | BasisKet h x, BasisKet k y => ls_eqb h k && String.eqb x y
  | _, _ => false
  end.

Definition is_LocalOperator (e : Expr) : bool :=
  match e with
  | Create _ | Destroy _ | Jz _ | Jplus _ | Jminus _
  | Phase _ _ | Displace _ _ | Squeeze _ _ | LocalSigma _ _ _ => true
  | _ => false
  end.

(** The classes handled by [_convert_operator_operation_to_qutip]. *)
Definition is_OperatorOperation (e : Expr) : bool :=
  match e with
  | OperatorPlus _ | OperatorTimes _ | Adjoint _ | PseudoInverse _
  | NullSpaceProjector _ => true
  | _ => false
  end.

Definition is_Ket (e : Expr) : bool :=
  match e with
  | BasisKet _ _ | CoherentStateKet _ _ => true
  | _ => false
  end.

(** What the converter asks of the expression algebra without the code
    being among the sources: distributive expansion and printing. *)
Class Algebra : Type := {
  expand : Expr -> Expr;
  str_expr : Expr -> string;
  type_str : Expr -> string;
  str_space : HilbertSpace -> string;
  str_sexpr : SExpr -> string
}.

End Expressions.

(** ** The converter *)

Section Convert.
Context `{Sc : Scalars} `{Qt : @Qutip Sc} `{Alg : @Algebra Sc}.

Definition DENSE_DIMENSION_LIMIT : nat := 1000.

(** A value of the [mapping] dictionary: a quantum object, a callable
    that produces one, or anything else. *)
Inductive MapVal : Type :=
| MQobj (q : Qobj)
| MCallable (f : Expr -> Qobj)
| MOther.

(** The dictionary, looked up by structural equality of the key. *)
Definition Mapping : Type := Expr -> option MapVal.

(** [mapping[expr]] when [mapping is not None] and [expr in mapping]. *)
Definition mapping_get (mapping : option Mapping) (expr : Expr) : option MapVal :=
  match mapping with
  | Some m => m expr
  | None => None
  end.

(** An argument of a library call: an expression or a quantum object. *)
Inductive PyObj : Type :=
| OExpr (e : Expr)
| OQobj (q : Qobj).

(** [qutip.dag(A)] accepts quantum objects only. *)
Definition qutip_dag (A : PyObj) : result Qobj :=
  match A with
  | OQobj q => Ok (qdag q)
  | OExpr _ => Raise (mkErr TypeError "Input is not a quantum object")
  end.

(** [convert_to_qutip] applied to a quantum object reads [expr.space]. *)
Definition convert_qobj (q : Qobj) : result PyVal :=
  Raise (mkErr AttributeError "'Qobj' object has no attribute 'space'").

(** [mo.data], [mo.dims], [mo.isherm] of a converted operand. *)
Definition expect_qobj (v : PyVal) : result Qobj :=
  match v with
  | PQobj q => Ok q
  | PNum _ => Raise (mkErr AttributeError "object has no attribute 'data'")
  end.

(** [l + v] where [l] is a list and [v] a converted object, not a list:
    the list does not concatenate with it, and the reflected addition of
    the library coerces the list to a quantum object and rejects it.  No
    list is produced; the exception is represented by one [TypeError]. *)
Definition list_plus (l : list PyVal) (v : PyVal) : result (list PyVal) :=
  Raise (mkErr TypeError "unsupported operand type(s) for +: 'list' and 'Qobj'").

Definition cannot_convert (expr : Expr) : PyErr :=
  mkErr ValueError ("Cannot convert '" ++ str_expr expr ++ "' of type " ++ type_str expr)%string.

(** [sum((f(op) for op in operands), 0)]: the generator is consumed
    while the sum is accumulated. *)
Fixpoint sum_gen (f : Expr -> result PyVal) (operands : list Expr) (acc : PyVal)
  : result PyVal :=
  match operands with
  | [] => Ok acc
  | op :: rest => v <- f op ;; acc' <- py_add acc v ;; sum_gen f rest acc'
  end.

Definition qeyes (spaces : list LocalSpace) : list PyVal :=
  map (fun s => PQobj (qeye (ls_dimension s))) spaces.

Section Helpers.
(** The recursive call [convert_to_qutip(expr, full_space, mapping)]. *)
Variable rec : Expr -> option HilbertSpace -> option Mapping -> result PyVal.

Definition _convert_local_operator_to_qutip
  (expr : Expr) (full_space : HilbertSpace) (mapping : option Mapping) : result PyVal :=
  let n := dimension full_space in
  if negb (hs_eqb full_space (space expr)) then
    let all_spaces := local_factors full_space in
    own_space_index <- index (fun s x => hs_eqb [s] x) all_spaces (space expr) ;;
    own <- rec expr (Some (space expr)) mapping ;;
    tensor (qeyes (firstn own_space_index all_spaces) ++
            [own] ++
            qeyes (skipn (own_space_index + 1) all_spaces))
  else
    match expr with
    | Create _ | Jz _ | Jplus _ => Ok (PQobj (create n))
    | Destroy _ | Jminus _ => Ok (PQobj (destroy n))
    | Phase _ phi =>
        p <- complex phi ;;
        let d := map (fun k => cis (cmul p (c_of_nat k))) (seq 0 n) in
        Ok (PQobj (Qobj_of_array (mat_diag d)))
    | Displace _ alpha => Ok (PQobj (displace n alpha))
    | Squeeze _ eta => Ok (PQobj (displace n eta))
    | LocalSigma hs op1 op2 =>
        let k := op1 in
        let j := op2 in
        ik <- index String.eqb (ls_basis hs) k ;;
        ket <- basis n ik ;;
        ij <- index String.eqb (ls_basis hs) j ;;
        b <- basis n ij ;;
        r <- qmul ket (qdag b) ;;
        Ok (PQobj r)
    | _ => Raise (cannot_convert expr)
    end.

(** The loop of the product branch over the local factors of the ambient
    space: the converted factors of each space are multiplied, a space
    without factor gets the identity, and [ck] counts the factors used. *)
Fixpoint times_loop (operands : list Expr) (mapping : option Mapping)
  (all_spaces : list LocalSpace) (by_space : list PyVal) (ck : nat)
  : result (list PyVal * nat) :=
  match all_spaces with
  | [] => Ok (by_space, ck)
  | ls :: rest =>
      ls_ops <- mapM (fun o => rec o (Some (space o)) mapping)
                     (filter (fun o => hs_eqb (space o) [ls]) operands) ;;
      if negb (List.length ls_ops =? 0) then
        p <- prod ls_ops ;;
        times_loop operands mapping rest (by_space ++ [p]) (ck + List.length ls_ops)
      else
        times_loop operands mapping rest
                   (by_space ++ [PQobj (qeye (ls_dimension ls))]) ck
  end.

(** The operands that act on the local space [ls]: the filter of the
    list comprehension in the loop. *)
Definition on_space (operands : list Expr) (ls : LocalSpace) : list Expr :=
  filter (fun o => hs_eqb (space o) [ls]) operands.

(** Rows of [Vh] selected by the boolean mask. *)
Fixpoint select_rows (mask : list bool) (rows : Matrix) : Matrix :=
  match mask, rows with
  | b :: mask', r :: rows' =>
      if b then r :: select_rows mask' rows' else select_rows mask' rows'
  | _, _ => []
  end.

(** [V.conjugate().transpose().dot(V)] for [V] with rows of length [n]. *)
Definition gram (n : nat) (V : Matrix) : Matrix :=
  map (fun i => map (fun j =>
         fold_right cadd c0 (map (fun r => cmul (cconj (nth i r c0)) (nth j r c0)) V))
       (seq 0 n)) (seq 0 n).

Definition _convert_operator_operation_to_qutip
  (expr : Expr) (full_space : HilbertSpace) (mapping : option Mapping) : result PyVal :=
  match expr with
  | OperatorPlus operands =>
      sum_gen (fun op => rec op (Some full_space) mapping) operands (PNum c0)
  | OperatorTimes operands =>
      if existsb (fun op => 1 <? List.length (space op)) operands then
        let se := expand expr in
        if Expr_eqb se expr then
          Raise (mkErr ValueError
                   ("Cannot represent as QuTiP object: " ++ str_expr expr)%string)
        else rec se (Some full_space) mapping
      else
        let all_spaces := local_factors full_space in
        r <- times_loop operands mapping all_spaces [] 0 ;;
        let '(by_space, ck) := r in
        if ck =? List.length operands then tensor by_space
        else Raise (mkErr AssertionError "ck == len(expr.operands)")
  | Adjoint operand =>
      q <- qutip_dag (OExpr operand) ;;
      convert_qobj q
  | PseudoInverse operand =>
      v <- rec operand (Some full_space) mapping ;;
      if dimension full_space <=? DENSE_DIMENSION_LIMIT then
        mo <- expect_qobj v ;;
        let arr := data mo in
        let piarr := pinv arr in
        let pimo := Qobj_of_array piarr in
        Ok (PQobj {| data := data pimo; dims := dims mo;
                     isherm := isherm mo; type := "oper" |})
      else Raise (mkErr NotImplementedError "Only implemented for smaller state spaces")
  | NullSpaceProjector operand =>
      v <- rec operand (Some full_space) mapping ;;
      if dimension full_space <=? DENSE_DIMENSION_LIMIT then
        mo <- expect_qobj v ;;
        let arr := data mo in
        let '(U, s, Vh) := svd arr in
        match s with
        | [] => Raise (mkErr IndexError "index 0 is out of bounds")
        | s0 :: _ =>
            let tol := cmul c_1e_8 s0 in
            let zero_svs := map (fun x => cltb x tol) s in
            let Vhzero := select_rows zero_svs Vh in
            let PKarr := gram (ncols Vh) Vhzero in
            let PKmo := Qobj_of_array PKarr in
            Ok (PQobj {| data := data PKmo; dims := dims mo;
                         isherm := true; type := "oper" |})
        end
      else Raise (mkErr NotImplementedError "Only implemented for smaller state spaces")
  | _ => Raise (cannot_convert expr)
  end.

Definition _convert_ket_to_qutip
  (expr : Expr) (full_space : HilbertSpace) (mapping : option Mapping) : result PyVal :=
  let n := dimension full_space in
  if negb (hs_eqb full_space (space expr)) then
    let all_spaces := local_factors full_space in
    own_space_index <- index (fun s x => hs_eqb [s] x) all_spaces (space expr) ;;
    own <- rec expr (Some (space expr)) mapping ;;
    l <- list_plus (qeyes (firstn own_space_index all_spaces)) own ;;
    tensor (l ++ qeyes (skipn (own_space_index + 1) all_spaces))
  else
    match expr with
    | BasisKet hs label =>
        i <- index String.eqb (ls_basis hs) label ;;
        k <- basis n i ;;
        Ok (PQobj k)
    | CoherentStateKet _ ampl =>
        a <- complex ampl ;;
        Ok (PQobj (coherent n a))
    | _ => Raise (cannot_convert expr)
    end.

(** The body of [convert_to_qutip(expr, full_space, mapping)]: the space
    check, the lookup in [mapping], then the dispatch on the class of
    [expr]. *)
Definition convert_step (expr : Expr) (full_space : option HilbertSpace)
  (mapping : option Mapping) : result PyVal :=
  let full_space :=
    match full_space with
    | None => space expr
    | Some fs => fs
    end in
  if negb (is_tensor_factor_of (space expr) full_space) then
    Raise (mkErr ValueError "expr must be in full_space")
  else
    match mapping_get mapping expr with
    | Some (MQobj ret) => Ok (PQobj ret)
    | Some (MCallable ret) => Ok (PQobj (ret expr))
    | Some MOther => Raise (mkErr AssertionError "callable(ret)")
    | None =>
        match expr with
        | IdentityOperator =>
            let local_spaces := local_factors full_space in
            if List.length local_spaces =? 0 then
              Raise (mkErr ValueError
                       ("full_space " ++ str_space full_space ++
                        " does not have local factors")%string)
            else tensor (qeyes local_spaces)
        | ZeroOperator =>
            tensor (map (fun s => PQobj (qzeros (ls_dimension s)))
                        (local_factors full_space))
        | ScalarTimesOperator coeff term =>
            c <- complex coeff ;;
            v <- rec term (Some full_space) mapping ;;
            py_mul (PNum c) v
        | OperatorTrace _ _ =>
            Raise (mkErr NotImplementedError "Cannot convert OperatorTrace to qutip")
        | _ =>
            if is_LocalOperator expr then
              _convert_local_operator_to_qutip expr full_space mapping
            else if is_OperatorOperation expr then
              _convert_operator_operation_to_qutip expr full_space mapping
            else if is_Ket expr then
              _convert_ket_to_qutip expr full_space mapping
            else Raise (cannot_convert expr)
        end
    end.

End Helpers.

(** [convert_to_qutip]: the recursion of [convert_step].  The fuel bounds
    the depth of the recursion, as the interpreter does. *)
Fixpoint convert_to_qutip (fuel : nat) (expr : Expr) (full_space : option HilbertSpace)
  (mapping : option Mapping) {struct fuel} : result PyVal :=
  match fuel with
  | 0 => Raise (mkErr RecursionError "maximum recursion depth exceeded")
  | S fuel' => convert_step (convert_to_qutip fuel') expr full_space mapping
  end.

End Convert.

(** ** Explicit time dependence *)

Section TimeDependent.
Context `{Sc : Scalars} `{Qt : @Qutip Sc} `{Alg : @Algebra Sc}.

(** A time-dependent coefficient: a Python function of [(t, args)] or a
    source string. *)
Inductive Coeff : Type :=
| CFunc (func : C -> list (string * C) -> SExpr)
| CStr (s : string).

(** The nested-list structure handed to the integrator. *)
Inductive TDep : Type :=
| TDObj (v : PyVal)
| TDCoeff (c : Coeff)
| TDList (l : list TDep).

(** [re.sub("I", "(1.0j)", s)] *)
Fixpoint re_sub_I (s : string) : string :=
  match s with
  | EmptyString => EmptyString
  | String c s' =>
      if Ascii.eqb c "I"%char then ("(1.0j)" ++ re_sub_I s')%string
      else String c (re_sub_I s')
  end.

Definition mem_symbol (x : string) (l : list string) : bool :=
  existsb (String.eqb x) l.

Definition invalid_convert_as (convert_as : string) : PyErr :=
  mkErr ValueError
    ("Invalid value '" ++ convert_as ++
     "' for `convert_as`, must be one of 'str', 'pyfunc'")%string.

Definition make_coeff (time_symbol : string) (convert_as : string) (coeff : SExpr)
  : result Coeff :=
  if String.eqb convert_as "pyfunc" then
    let func_no_args := lambdify time_symbol coeff in
    if set_eqb [time_symbol] (free_symbols coeff) then
      Ok (CFunc (fun t args => func_no_args t))
    else
      Ok (CFunc (fun t args => subs args (func_no_args t)))
  else if String.eqb convert_as "str" then
    Ok (CStr (re_sub_I (str_sexpr coeff)))
  else Raise (invalid_convert_as convert_as).

(** First loop over the operands of the expanded sum: the static terms
    are converted and accumulated in [result[0]]. *)
Fixpoint static_loop (conv : Expr -> result PyVal) (time_symbol : string)
  (operands : list Expr) (result0 : list PyVal) : result (list PyVal) :=
  match operands with
  | [] => Ok result0
  | o :: rest =>
      if negb (mem_symbol time_symbol (all_symbols o)) then
        match result0 with
        | [] => v <- conv o ;; static_loop conv time_symbol rest [v]
        | r0 :: tl =>
            v <- conv o ;;
            r <- py_add r0 v ;;
            static_loop conv time_symbol rest (r :: tl)
        end
      else static_loop conv time_symbol rest result0
  end.

(** Second loop: every time-dependent term appends its own structure. *)
Fixpoint dynamic_loop (tdrec : Expr -> result TDep) (time_symbol : string)
  (operands : list Expr) (result0 : list TDep) : result (list TDep) :=
  match operands with
  | [] => Ok result0
  | o :: rest =>
      if mem_symbol time_symbol (all_symbols o) then
        r <- tdrec o ;;
        dynamic_loop tdrec time_symbol rest (result0 ++ [r])
      else dynamic_loop tdrec time_symbol rest result0
  end.

(** The body of [_time_dependent_to_qutip]; [conv] is [convert_to_qutip]
    and [tdrec] the recursive call. *)
Definition time_dependent_step
  (conv : Expr -> option HilbertSpace -> option Mapping -> result PyVal)
  (tdrec : Expr -> option HilbertSpace -> string -> string -> result TDep)
  (op : Expr) (full_space : option HilbertSpace) (time_symbol : string)
  (convert_as : string) : result TDep :=
  let full_space :=
    match full_space with
    | None => space op
    | Some fs => fs
    end in
  if mem_symbol time_symbol (all_symbols op) then
    let op := expand op in
    match op with
    | OperatorPlus operands =>
        statics <- static_loop (fun o => conv o (Some full_space) None)
                               time_symbol operands [] ;;
        l <- dynamic_loop
               (fun o => tdrec o (Some full_space) time_symbol convert_as)
               time_symbol operands (map TDObj statics) ;;
        Ok (TDList l)
    | ScalarTimesOperator coeff term =>
        c <- make_coeff time_symbol convert_as coeff ;;
        t <- conv term (Some full_space) None ;;
        Ok (TDList [TDObj t; TDCoeff c])
    | _ =>
        Raise (mkErr ValueError
                 "op cannot be expressed in qutip. It must have the structure op = sum_i f_i(t) * op_i")
    end
  else
    v <- conv op (Some full_space) None ;;
    Ok (TDObj v).

Fixpoint _time_dependent_to_qutip (fuel : nat) (op : Expr)
  (full_space : option HilbertSpace) (time_symbol : string) (convert_as : string)
  {struct fuel} : result TDep :=
  match fuel with
  | 0 => Raise (mkErr RecursionError "maximum recursion depth exceeded")
  | S fuel' =>
      time_dependent_step (convert_to_qutip fuel') (_time_dependent_to_qutip fuel')
        op full_space time_symbol convert_as
  end.

End TimeDependent.

(** ** SLH triples *)

Section SLHConvert.
Context `{Sc : Scalars} `{Qt : @Qutip Sc} `{Alg : @Algebra Sc}.

(** An entry of the matrices [S] and [L]: an operator or a scalar. *)
Inductive LEntry : Type :=
| LOperator (op : Expr)
| LScalar (c : SExpr).

(** Modelled from the spec: the SLH triple of [qnet.algebra.circuit_algebra],
    with the matrices [S] and [L] flattened to the list of their entries. *)
Record SLH : Type := mkSLH {
  slh_S : list LEntry;
  slh_L : list LEntry;
  slh_H : Expr
}.

Definition entry_space (x : LEntry) : HilbertSpace :=
  match x with
  | LOperator op => space op
  | LScalar _ => TrivialSpace
  end.

(** Modelled from the spec: [slh.space], the tensor closure of the spaces
    of the entries of [S] and [L] and of [H]. *)
Definition slh_space (slh : SLH) : HilbertSpace :=
  fold_right (fun x acc => hs_tensor (entry_space x) acc) (space (slh_H slh))
             (slh_S slh ++ slh_L slh).

(** What a call of [SLH_to_qutip] ends with: the pair [(H, Ls)], its own
    [AlgebraError], or an exception of the converter. *)
Inductive SLHOutcome : Type :=
| SLHReturn (H : TDep) (Ls : list TDep)
| SLHAlgebraError (msg : string)
| SLHRaise (e : PyErr).

(** [isinstance(L, Operator)] *)
Definition is_Operator_entry (x : LEntry) : bool :=
  match x with
  | LOperator op => negb (is_Ket op)
  | LScalar _ => false
  end.

(** Truth value of a space: its length, which the converter also takes
    with [len], is not zero. *)
Definition hs_truthy (hs : HilbertSpace) : bool := negb (List.length hs =? 0).

(** [_time_dependent_to_qutip] applied to an entry of [L]; a scalar has
    no method [all_symbols]. *)
Definition time_dependent_entry (fuel : nat) (x : LEntry) (full_space : HilbertSpace)
  (time_symbol convert_as : string) : result TDep :=
  match x with
  | LOperator op =>
      _time_dependent_to_qutip fuel op (Some full_space) time_symbol convert_as
  | LScalar _ =>
      Raise (mkErr AttributeError "object has no attribute 'all_symbols'")
  end.

Definition convert_entry (fuel : nat) (x : LEntry) (full_space : HilbertSpace)
  : result TDep :=
  match x with
  | LOperator op => v <- convert_to_qutip fuel op (Some full_space) None ;; Ok (TDObj v)
  | LScalar _ => Raise (mkErr AttributeError "object has no attribute 'space'")
  end.

(** [SLH_to_qutip(slh, full_space, time_symbol, convert_as)]; the fuel is
    that of the conversions it calls. *)
Definition SLH_to_qutip (fuel : nat) (slh : SLH) (full_space : option HilbertSpace)
  (time_symbol : option string) (convert_as : string) : SLHOutcome :=
  let checked : string + HilbertSpace :=
    match full_space with
    | Some fs =>
        if hs_truthy fs then
          if negb (is_tensor_factor_of (slh_space slh) fs) then
            inl ("full_space=" ++ str_space fs ++ " needs to " ++
                 "at least include slh.space = " ++ str_space (slh_space slh))%string
          else inr fs
        else inr (slh_space slh)
    | None => inr (slh_space slh)
    end in
  match checked with
  | inl msg => SLHAlgebraError msg
  | inr full_space =>
      match time_symbol with
      | None =>
          match convert_to_qutip fuel (slh_H slh) (Some full_space) None with
          | Raise e => SLHRaise e
          | Ok H =>
              match mapM (fun L => convert_entry fuel L full_space)
                         (filter is_Operator_entry (slh_L slh)) with
              | Raise e => SLHRaise e
              | Ok Ls => SLHReturn (TDObj H) Ls
              end
          end
      | Some t =>
          match _time_dependent_to_qutip fuel (slh_H slh) (Some full_space) t convert_as with
          | Raise e => SLHRaise e
          | Ok H =>
              match mapM (fun L => time_dependent_entry fuel L full_space t convert_as)
                         (slh_L slh) with
              | Raise e => SLHRaise e
              | Ok Ls => SLHReturn H Ls
              end
          end
      end
  end.

End SLHConvert.

(** ** Shapes of operator expressions *)

Section Shapes.
Context `{Sc : Scalars}.

(** Operator expressions built from the placeholders and the local
    operators by sums with at least one summand, products of factors that
    each act on at most one local space, scalar multiples, pseudo-inverses
    and null-space projectors. *)
Fixpoint operator_shape (e : Expr) : bool :=
  match e with
  | IdentityOperator | ZeroOperator => true
  | Create _ | Destroy _ | Jz _ | Jplus _ | Jminus _ => true
  | Phase _ _ | Displace _ _ | Squeeze _ _ | LocalSigma _ _ _ => true
  | OperatorPlus ops =>
      negb (List.length ops =? 0) && forallb operator_shape ops
  | OperatorTimes ops =>
      forallb (fun o => operator_shape o && (List.length (space o) <=? 1)) ops
  | ScalarTimesOperator _ t => operator_shape t
  | PseudoInverse o | NullSpaceProjector o => operator_shape o
  | OperatorSymbol _ _ | Adjoint _ | OperatorTrace _ _ => true
  | BasisKet _ _ | CoherentStateKet _ _ => false
  end.

(** Dimensions of the local factors, in their order. *)
Definition factor_dims (hs : HilbertSpace) : list nat := map ls_dimension hs.

(** A value is a quantum object with row and column dimensions [D]. *)
Definition has_dims (D : list nat) (v : PyVal) : Prop :=
  exists q, v = PQobj q /\ dims q = (D, D).

End Shapes.

(** ** Equality of results

    The converter's results are compared as the library compares quantum
    objects: by dimensions and entries. *)

Section ResultEquality.
Context `{Sc : Scalars}.

Definition PyVal_eq (a b : PyVal) : Prop :=
  match a, b with
  | PNum x, PNum y => x = y
  | PQobj p, PQobj q => Qobj_eq p q
  | _, _ => False
  end.

Definition result_eq (r s : result PyVal) : Prop :=
  match r, s with
  | Ok a, Ok b => PyVal_eq a b
  | Raise e, Raise f => e = f
  | _, _ => False
  end.

(** The matrix expected at the local factor [ls] of the ambient space
    for a product of one operator on [l1], converted to [a], and one on
    [l2], converted to [b]. *)
Definition slot `{Qt : @Qutip Sc} (l1 l2 : LocalSpace) (a b : PyVal) (ls : LocalSpace)
  : PyVal :=
  if ls_eqb l1 ls then a
  else if ls_eqb l2 ls then b
  else PQobj (qeye (ls_dimension ls)).

(** The error of the space check. *)
Definition space_error : PyErr := mkErr ValueError "expr must be in full_space".

End ResultEquality.

(** ** A concrete numerical model

    Exact complex numbers with integer parts, and stand-ins for the
    functions of floating-point analysis.  It serves to run the converter
    on concrete inputs. *)

Module GaussModel.

Definition G : Type := (Z * Z)%type.

Definition gadd (a b : G) : G := (fst a + fst b, snd a + snd b)%Z.

Definition gmul (a b : G) : G :=
  (fst a * fst b - snd a * snd b, fst a * snd b + snd a * fst b)%Z.

Definition gconj (a : G) : G := (fst a, - snd a)%Z.

Definition geqb (a b : G) : bool := (fst a =? fst b)%Z && (snd a =? snd b)%Z.

#[export] Instance GScalars : Scalars :=
  {| C := G; c0 := (0, 0)%Z; c1 := (1, 0)%Z;
     cadd := gadd; cmul := gmul; cconj := gconj;
     ceqb := geqb;
     ceqb_eq := ltac:(intros [a1 a2] [b1 b2]; unfold geqb; simpl;
                      rewrite andb_true_iff, !Z.eqb_eq;
                      split; [intros [-> ->]; reflexivity
                             | intros H; inversion H; auto]);
     cmul_1_l := ltac:(intros [x y]; unfold gmul; simpl fst; simpl snd;
                       f_equal; lia) |}.

Definition diagonal (M : list (list G)) : list G :=
  map (fun i => nth i (nth i M []) (0, 0)%Z) (seq 0 (List.length M)).

Definition gmat_eqb (A B : list (list G)) : bool :=
  (List.length A =? List.length B) &&
  forallb (fun p => (List.length (fst p) =? List.length (snd p)) &&
                    forallb (fun q => geqb (fst q) (snd q)) (combine (fst p) (snd p)))
          (combine A B).

#[export] Instance GQutip : @Qutip GScalars :=
  {| c_of_nat := fun n => (Z.of_nat n, 0%Z);
     sqrt_nat := fun n => (Z.of_nat (Nat.sqrt n), 0%Z);
     cis := fun z => z;
     check_herm := fun M => gmat_eqb M (mat_dag M);
     scalar_add := fun c q => q;
     displace_data := fun n _ => mat_eye n;
     coherent_data := fun n _ => basis_data n 0;
     pinv := fun M => M;
     svd := fun M => (mat_eye (nrows M), diagonal M, mat_eye (ncols M));
     c_1e_8 := (0, 0)%Z;
     cltb := fun a b => (fst a <? fst b)%Z |}.

(** Name of the class of an expression. *)
Definition class_name (e : @Expr GScalars) : string :=
  match e with
  | IdentityOperator => "IdentityOperator"
  | ZeroOperator => "ZeroOperator"
  | OperatorSymbol _ _ => "OperatorSymbol"
  | Create _ => "Create"
  | Destroy _ => "Destroy"
  | Jz _ => "Jz"
  | Jplus _ => "Jplus"
  | Jminus _ => "Jminus"
  | Phase _ _ => "Phase"
  | Displace _ _ => "Displace"
  | Squeeze _ _ => "Squeeze"
  | LocalSigma _ _ _ => "LocalSigma"
  | OperatorPlus _ => "OperatorPlus"
  | OperatorTimes _ => "OperatorTimes"
  | ScalarTimesOperator _ _ => "ScalarTimesOperator"
  | Adjoint _ => "Adjoint"
  | PseudoInverse _ => "PseudoInverse"
  | NullSpaceProjector _ => "NullSpaceProjector"
  | OperatorTrace _ _ => "OperatorTrace"
  | BasisKet _ _ => "BasisKet"
  | CoherentStateKet _ _ => "CoherentStateKet"
  end.

(** The expression algebra of the model: expressions are kept in
    expanded form, so [expand] returns its argument. *)
#[export] Instance GAlgebra : @Algebra GScalars :=
  {| expand := fun e => e;
     str_expr := fun e =>
       match e with
       | OperatorSymbol label _ => label
       | _ => class_name e
       end;
     type_str := class_name;
     str_space := fun hs => String.concat " * " (map ls_name hs);
     str_sexpr := fun _ => "coeff" |}.

Definition sA : LocalSpace := mkLocalSpace "a" ["0"; "1"].
Definition sB : LocalSpace := mkLocalSpace "b" ["0"; "1"; "2"].
Definition sC : LocalSpace := mkLocalSpace "c" ["g"; "e"].

(** The coefficient [2 * t] and the projector on the second basis state. *)
Definition two_t : @SExpr GScalars :=
  SMul (SSymbol "t") (@SNum GScalars (2, 0)%Z).

Definition sigma11 : @Qobj GScalars :=
  @mkQobj GScalars [[(0, 0); (0, 0)]; [(0, 0); (1, 0)]]%Z ([2], [2]) true "oper".

(** The mapping that holds one quantum object, for the symbol [X]. *)
Definition mapX : @Mapping GScalars :=
  fun e => if Expr_eqb e (OperatorSymbol "X" [sA]) then Some (MQobj sigma11) else None.






End GaussModel.

(** * Properties *)

(** ** Spaces *)

Lemma ls_eqb_eq (a b : LocalSpace) : ls_eqb a b = true <-> a = b.
Proof.
  destruct a as [na ba], b as [nb bb]; unfold ls_eqb; simpl.
  destruct (list_eq_dec string_dec ba bb) as [E | N].
  - rewrite andb_true_r, String.eqb_eq.
    split; [intros ->; subst; reflexivity | intros H; inversion H; reflexivity].
  - rewrite andb_false_r.
    split; [discriminate | intros H; inversion H; contradiction].
Qed.

Lemma ls_eqb_refl (a : LocalSpace) : ls_eqb a a = true.
Proof. apply ls_eqb_eq; reflexivity. Qed.

Lemma ls_eqb_neq (a b : LocalSpace) : ls_eqb a b = false <-> a <> b.
Proof.
  rewrite <- ls_eqb_eq.
  destruct (ls_eqb a b); split; congruence.
Qed.

Lemma hs_eqb_eq (a b : HilbertSpace) : hs_eqb a b = true <-> a = b.
Proof.
  unfold hs_eqb.
  revert b; induction a as [| x a IH]; intros [| y b]; simpl;
    try (split; [discriminate | discriminate]).
  - split; reflexivity.
  - specialize (IH b).
    rewrite andb_true_iff in *.
    rewrite andb_true_iff, ls_eqb_eq.
    split.
    + intros [Hl [-> Hf]].
      f_equal; apply IH; split; assumption.
    + intros H; inversion H; subst.
      split; [apply Nat.eqb_refl |].
      split; [reflexivity |].
      apply (proj2 IH eq_refl).
Qed.

Lemma hs_eqb_refl (a : HilbertSpace) : hs_eqb a a = true.
Proof. apply hs_eqb_eq; reflexivity. Qed.

Lemma hs_eqb_neq (a b : HilbertSpace) : hs_eqb a b = false <-> a <> b.
Proof.
  rewrite <- hs_eqb_eq.
  destruct (hs_eqb a b); split; congruence.
Qed.

Lemma is_tensor_factor_of_incl (a b : HilbertSpace) :
  is_tensor_factor_of a b = true <-> incl a b.
Proof.
  unfold is_tensor_factor_of, incl.
  rewrite forallb_forall.
  split; intros H s Hs.
  - apply H in Hs.
    apply existsb_exists in Hs as [x [Hx E]].
    apply ls_eqb_eq in E; subst; assumption.
  - apply existsb_exists.
    exists s; split; [apply H; assumption | apply ls_eqb_refl].
Qed.

Lemma is_tensor_factor_of_refl (a : HilbertSpace) : is_tensor_factor_of a a = true.
Proof. apply is_tensor_factor_of_incl, incl_refl. Qed.

Lemma is_tensor_factor_of_trans (a b c : HilbertSpace) :
  is_tensor_factor_of a b = true ->
  is_tensor_factor_of b c = true ->
  is_tensor_factor_of a c = true.
Proof.
  rewrite !is_tensor_factor_of_incl; intros; eapply incl_tran; eassumption.
Qed.

Lemma hs_insert_In (s x : LocalSpace) (hs : HilbertSpace) :
  In x (hs_insert s hs) <-> x = s \/ In x hs.
Proof.
  induction hs as [| h t IH]; simpl.
  - intuition congruence.
  - destruct (ls_eqb s h) eqn:E.
    + apply ls_eqb_eq in E; subst; simpl; intuition congruence.
    + destruct (String.leb (ls_name s) (ls_name h)); simpl.
      * intuition congruence.
      * rewrite IH; intuition congruence.
Qed.

Lemma hs_tensor_In (a b : HilbertSpace) (x : LocalSpace) :
  In x (hs_tensor a b) <-> In x a \/ In x b.
Proof.
  unfold hs_tensor.
  induction a as [| s a IH]; simpl.
  - intuition.
  - rewrite hs_insert_In, IH; intuition congruence.
Qed.

Lemma dimension_local (s : LocalSpace) : dimension [s] = ls_dimension s.
Proof. unfold dimension; simpl; apply Nat.mul_1_r. Qed.

(** ** Matrices *)

Section MatrixFacts.
Context `{Sc : Scalars}.

Lemma nth_map_seq {A : Type} (f : nat -> A) (n k : nat) (d : A) :
  k < n -> nth k (map f (seq 0 n)) d = f k.
Proof.
  intros Hk.
  rewrite nth_indep with (d' := f 0) by (rewrite length_map, length_seq; exact Hk).
  rewrite map_nth, seq_nth by exact Hk; reflexivity.
Qed.



Lemma basis_data_entry (n i k : nat) :
  k < n ->
  nth k (basis_data n i) [] = [if k =? i then c1 else c0].
Proof.
  intros Hk; unfold basis_data.
  rewrite nth_map_seq by exact Hk; reflexivity.
Qed.

Lemma mat_scale_1 (M : Matrix) : mat_scale c1 M = M.
Proof.
  unfold mat_scale.
  rewrite <- (map_id M) at 2.
  apply map_ext; intros row.
  rewrite <- (map_id row) at 2.
  apply map_ext; intros c; apply cmul_1_l.
Qed.

End MatrixFacts.

Lemma index_from_bound {A B : Type} (eqb : A -> B -> bool) (x : B) (l : list A) (k i : nat) :
  index_from eqb x l k = Ok i -> k <= i < k + List.length l.
Proof.
  revert k; induction l as [| y l IH]; intros k; simpl.
  - discriminate.
  - destruct (eqb y x).
    + intros H; inversion H; subst; lia.
    + intros H; apply IH in H; lia.
Qed.

Lemma index_lt {A B : Type} (eqb : A -> B -> bool) (x : B) (l : list A) (i : nat) :
  index eqb l x = Ok i -> i < List.length l.
Proof. intros H; apply index_from_bound in H; lia. Qed.

(** ** The converter on leaves and placeholders *)

Section LeafClaims.
Context `{Sc : Scalars} `{Qt : @Qutip Sc} `{Alg : @Algebra Sc}.

Lemma is_tensor_factor_of_trivial (fs : HilbertSpace) :
  is_tensor_factor_of TrivialSpace fs = true.
Proof. reflexivity. Qed.


Lemma convert_local_own (fuel : nat) (expr : Expr) (s : LocalSpace) :
  space expr = [s] ->
  is_LocalOperator expr = true ->
  convert_to_qutip (S fuel) expr (Some [s]) None =
  _convert_local_operator_to_qutip (convert_to_qutip fuel) expr [s] None.
Proof.
  intros Hs Hl.
  destruct expr; try discriminate Hl; simpl in Hs; inversion Hs; subst;
    simpl; unfold convert_step; simpl; rewrite ls_eqb_refl; reflexivity.
Qed.

(** C10: a Squeeze operator with parameter [eta] and a Displace operator
    with amplitude [eta] convert, in their own space, to the same matrix:
    both are built by the displacement construction. *)
Theorem squeeze_converts_as_displace (fuel : nat) (hs : LocalSpace) (eta : SExpr) :
  convert_to_qutip (S fuel) (Squeeze hs eta) (Some [hs]) None =
  convert_to_qutip (S fuel) (Displace hs eta) (Some [hs]) None /\
  convert_to_qutip (S fuel) (Squeeze hs eta) (Some [hs]) None =
  Ok (PQobj (displace (ls_dimension hs) eta)) /\
  convert_to_qutip (S fuel) (Squeeze hs eta) None None =
  convert_to_qutip (S fuel) (Displace hs eta) None None.
Proof.
  rewrite !convert_local_own by reflexivity.
  unfold _convert_local_operator_to_qutip; simpl space.
  rewrite hs_eqb_refl, dimension_local; simpl.
  split; [reflexivity |].
  split; [reflexivity |].
  simpl; unfold convert_step; simpl.
  rewrite ls_eqb_refl; simpl.
  unfold _convert_local_operator_to_qutip; simpl space.
  rewrite hs_eqb_refl; reflexivity.
Qed.

(** C5: the Adjoint branch hands the symbolic operand to [qutip.dag]
    before any conversion, so the conversion of an Adjoint node raises
    instead of returning the conjugate-transpose of the converted
    operand. *)
Theorem adjoint_branch_raises (fuel : nat) (A : Expr) :
  convert_to_qutip (S fuel) (Adjoint A) None None =
  Raise (mkErr TypeError "Input is not a quantum object").
Proof.
  simpl; unfold convert_step; simpl.
  rewrite is_tensor_factor_of_refl; reflexivity.
Qed.

End LeafClaims.

(** ** Kets *)

Section KetClaims.
Context `{Sc : Scalars} `{Qt : @Qutip Sc} `{Alg : @Algebra Sc}.

Lemma local_is_factor (hs : LocalSpace) (fs : HilbertSpace) :
  In hs fs -> is_tensor_factor_of [hs] fs = true.
Proof.
  intros H; apply is_tensor_factor_of_incl.
  intros x [<- | []]; exact H.
Qed.

Lemma hs_eqb_single (h s : LocalSpace) : hs_eqb [h] [s] = ls_eqb h s.
Proof. unfold hs_eqb; simpl; apply andb_true_r. Qed.

Lemma index_from_local_factor (hs : LocalSpace) (fs : HilbertSpace) (k0 : nat) :
  In hs fs ->
  exists k, index_from (fun s x => hs_eqb [s] x) [hs] fs k0 = Ok k /\
            nth_error fs (k - k0) = Some hs /\ k0 <= k.
Proof.
  revert k0; induction fs as [| h t IH]; intros k0 Hin; [destruct Hin |].
  simpl; rewrite hs_eqb_single.
  destruct (ls_eqb h hs) eqn:E.
  - apply ls_eqb_eq in E; subst.
    exists k0; rewrite Nat.sub_diag; auto.
  - destruct Hin as [-> | Hin]; [rewrite ls_eqb_refl in E; discriminate |].
    destruct (IH (S k0) Hin) as [k [Hk [Hn Hle]]].
    exists k; split; [exact Hk |].
    split; [| lia].
    replace (k - k0) with (S (k - S k0)) by lia; exact Hn.
Qed.

Lemma index_local_factor (hs : LocalSpace) (fs : HilbertSpace) :
  In hs fs ->
  exists k, index (fun s x => hs_eqb [s] x) fs [hs] = Ok k /\
            nth_error fs k = Some hs.
Proof.
  intros Hin.
  destruct (index_from_local_factor hs fs 0 Hin) as [k [Hk [Hn _]]].
  exists k; rewrite Nat.sub_0_r in Hn; auto.
Qed.

(** A basis ket converted in its own space is the one-hot column located
    by the index of its label. *)
Lemma basis_ket_own_space (fuel : nat) (hs : LocalSpace) (label : string) (i : nat) :
  index String.eqb (ls_basis hs) label = Ok i ->
  let n := ls_dimension hs in
  convert_to_qutip (S fuel) (BasisKet hs label) (Some [hs]) None =
    Ok (PQobj {| data := basis_data n i; dims := ([n], [1]);
                 isherm := false; type := "ket" |}) /\
  i < n /\
  (forall k, k < n -> nth k (basis_data n i) [] = [if k =? i then c1 else c0]).
Proof.
  intros Hi n.
  assert (Hlt : i < n) by (apply index_lt in Hi; exact Hi).
  split; [| split; [exact Hlt | intros k Hk; apply basis_data_entry; exact Hk]].
  simpl; unfold convert_step; simpl; rewrite ls_eqb_refl; simpl.
  unfold _convert_ket_to_qutip; simpl space.
  rewrite hs_eqb_refl, dimension_local; simpl.
  rewrite Hi; simpl.
  unfold basis; fold n.
  apply Nat.ltb_lt in Hlt; rewrite Hlt; reflexivity.
Qed.

(** C6: a basis ket converts, in its own space, to the one-hot vector at
    the index of its label; in a larger ambient space the embedding adds
    the converted ket to a list without wrapping it in a list, and the
    conversion raises instead of returning the tensor product with the
    identities of the other factors. *)
Theorem ket_embedding_raises (fuel : nat) (hs : LocalSpace) (label : string)
  (i : nat) (fs : HilbertSpace) :
  index String.eqb (ls_basis hs) label = Ok i ->
  In hs fs ->
  fs <> [hs] ->
  convert_to_qutip (S fuel) (BasisKet hs label) (Some [hs]) None =
    Ok (PQobj {| data := basis_data (ls_dimension hs) i;
                 dims := ([ls_dimension hs], [1]);
                 isherm := false; type := "ket" |}) /\
  convert_to_qutip (S (S fuel)) (BasisKet hs label) (Some fs) None =
    Raise (mkErr TypeError "unsupported operand type(s) for +: 'list' and 'Qobj'").
Proof.
  intros Hi Hin Hne.
  destruct (basis_ket_own_space fuel hs label i Hi) as [Hown _].
  split; [exact Hown |].
  change (convert_to_qutip (S (S fuel)) (BasisKet hs label) (Some fs) None)
    with (if negb (is_tensor_factor_of [hs] fs)
          then Raise (mkErr ValueError "expr must be in full_space")
          else _convert_ket_to_qutip (convert_to_qutip (S fuel))
                 (BasisKet hs label) fs None).
  rewrite (local_is_factor hs fs Hin); simpl negb; cbv iota.
  unfold _convert_ket_to_qutip; simpl space.
  apply hs_eqb_neq in Hne; rewrite Hne; simpl negb; cbv iota.
  destruct (index_local_factor hs fs Hin) as [k [Hk _]].
  unfold local_factors at 1.
  rewrite Hk.
  unfold bind at 1.
  match goal with
  | |- bind ?c ?k = _ =>
      change (bind c k)
        with (bind (convert_to_qutip (S fuel) (BasisKet hs label) (Some [hs]) None) k)
  end.
  rewrite Hown; reflexivity.
Qed.

End KetClaims.

(** ** Time dependence: the format option *)

Section ConvertAsClaims.
Context `{Sc : Scalars} `{Qt : @Qutip Sc} `{Alg : @Algebra Sc}.


End ConvertAsClaims.

(** ** Products of operators *)

Section ProductClaims.
Context `{Sc : Scalars} `{Qt : @Qutip Sc} `{Alg : @Algebra Sc}.

Lemma mapM_length {A B : Type} (f : A -> result B) (l : list A) (bs : list B) :
  mapM f l = Ok bs -> List.length bs = List.length l.
Proof.
  revert bs; induction l as [| a l IH]; intros bs; simpl.
  - intros H; inversion H; reflexivity.
  - destruct (f a) as [b | e]; simpl; [| discriminate].
    destruct (mapM f l) as [bs' | e]; simpl; [| discriminate].
    intros H; inversion H; subst; simpl.
    f_equal; apply IH; reflexivity.
Qed.

Lemma times_loop_ck (rec : Expr -> option HilbertSpace -> option Mapping -> result PyVal)
  (operands : list Expr) (mapping : option Mapping) (all_spaces : list LocalSpace) :
  forall by_space ck by_space' ck',
    times_loop rec operands mapping all_spaces by_space ck = Ok (by_space', ck') ->
    ck' = ck + list_sum (map (fun ls => List.length (on_space operands ls)) all_spaces).
Proof.
  induction all_spaces as [| ls rest IH]; intros by_space ck by_space' ck'; simpl.
  - intros H; inversion H; lia.
  - fold (on_space operands ls).
    destruct (mapM (fun o => rec o (Some (space o)) mapping) (on_space operands ls))
      as [ls_ops | e] eqn:Em; simpl; [| discriminate].
    apply mapM_length in Em.
    destruct (List.length ls_ops =? 0) eqn:El; simpl.
    + apply Nat.eqb_eq in El.
      intros H; apply IH in H; lia.
    + destruct (prod ls_ops) as [p | e]; simpl; [| discriminate].
      intros H; apply IH in H; lia.
Qed.

Lemma count_one (ls0 : LocalSpace) (all_spaces : list LocalSpace) :
  NoDup all_spaces -> In ls0 all_spaces ->
  list_sum (map (fun ls => if ls_eqb ls0 ls then 1 else 0) all_spaces) = 1.
Proof.
  induction all_spaces as [| h t IH]; intros Hnd Hin; [destruct Hin |].
  inversion Hnd as [| ? ? Hnot Hnd']; subst; simpl.
  destruct (ls_eqb ls0 h) eqn:E.
  - apply ls_eqb_eq in E; subst.
    assert (Hz : list_sum (map (fun ls => if ls_eqb h ls then 1 else 0) t) = 0).
    { clear IH Hnd Hnd' Hin.
      induction t as [| x t IHt]; [reflexivity |]; simpl.
      destruct (ls_eqb h x) eqn:Ex.
      - apply ls_eqb_eq in Ex; subst; exfalso; apply Hnot; left; reflexivity.
      - apply IHt; intros Hc; apply Hnot; right; exact Hc. }
    rewrite Hz; reflexivity.
  - destruct Hin as [-> | Hin]; [rewrite ls_eqb_refl in E; discriminate |].
    simpl; apply IH; assumption.
Qed.

Lemma list_sum_map_add {A : Type} (f g : A -> nat) (l : list A) :
  list_sum (map (fun x => f x + g x) l) = list_sum (map f l) + list_sum (map g l).
Proof. induction l as [| a l IH]; simpl; lia. Qed.

Lemma grouped_count (operands : list Expr) (all_spaces : list LocalSpace) :
  NoDup all_spaces ->
  Forall (fun o => exists ls, In ls all_spaces /\ space o = [ls]) operands ->
  list_sum (map (fun ls => List.length (on_space operands ls)) all_spaces) =
  List.length operands.
Proof.
  intros Hnd; induction 1 as [| o ops [ls0 [Hin Hs]] Hall IH]; simpl.
  - induction all_spaces; simpl; auto.
    apply IHall_spaces; inversion Hnd; assumption.
  - transitivity
      (list_sum (map (fun ls => (if ls_eqb ls0 ls then 1 else 0) +
                                List.length (on_space ops ls)) all_spaces)).
    + f_equal; apply map_ext; intros ls.
      unfold on_space; simpl; rewrite Hs, hs_eqb_single.
      destruct (ls_eqb ls0 ls); reflexivity.
    + rewrite list_sum_map_add, (count_one ls0 all_spaces Hnd Hin), IH; reflexivity.
Qed.

Lemma operand_space_incl (o : Expr) (ops : list Expr) :
  In o ops ->
  incl (space o) (fold_right (fun o acc => hs_tensor (space o) acc) TrivialSpace ops).
Proof.
  induction ops as [| x ops IH]; intros Hin; [destruct Hin |].
  intros s Hs; simpl; apply hs_tensor_In.
  destruct Hin as [-> | Hin]; [left; exact Hs | right; apply IH; assumption].
Qed.

Lemma single_space_operands (operands : list Expr) (fs : HilbertSpace) :
  Forall (fun o => List.length (space o) = 1) operands ->
  is_tensor_factor_of (space (OperatorTimes operands)) fs = true ->
  Forall (fun o => exists ls, In ls fs /\ space o = [ls]) operands.
Proof.
  intros Hone Hfac.
  apply is_tensor_factor_of_incl in Hfac.
  apply Forall_forall; intros o Ho.
  rewrite Forall_forall in Hone; specialize (Hone o Ho).
  destruct (space o) as [| ls [| ? ?]] eqn:Es; try discriminate Hone.
  exists ls; split; [| reflexivity].
  apply Hfac; simpl.
  apply (operand_space_incl o operands Ho).
  rewrite Es; left; reflexivity.
Qed.

Lemma no_expansion (operands : list Expr) :
  Forall (fun o => List.length (space o) = 1) operands ->
  existsb (fun op => 1 <? List.length (space op)) operands = false.
Proof.
  induction 1 as [| o ops Ho _ IH]; simpl; [reflexivity |].
  rewrite Ho, IH; reflexivity.
Qed.

(** C9: in the conversion of a product whose operands each act on a
    single local space and whose space is a tensor factor of the ambient
    space, the number of factors consumed by the grouping equals the
    number of operands: the assertion of the product branch holds
    whenever it is reached, and the branch is the grouping followed by
    the tensor product. *)
Theorem product_assertion_holds
  (rec : Expr -> option HilbertSpace -> option Mapping -> result PyVal)
  (operands : list Expr) (mapping : option Mapping) (fs : HilbertSpace) :
  NoDup (local_factors fs) ->
  Forall (fun o => List.length (space o) = 1) operands ->
  is_tensor_factor_of (space (OperatorTimes operands)) fs = true ->
  (forall by_space ck,
     times_loop rec operands mapping (local_factors fs) [] 0 = Ok (by_space, ck) ->
     ck = List.length operands) /\
  _convert_operator_operation_to_qutip rec (OperatorTimes operands) fs mapping =
  (r <- times_loop rec operands mapping (local_factors fs) [] 0 ;; tensor (fst r)).
Proof.
  intros Hnd Hone Hfac.
  assert (Hck : forall by_space ck,
             times_loop rec operands mapping (local_factors fs) [] 0 = Ok (by_space, ck) ->
             ck = List.length operands).
  { intros by_space ck H.
    apply times_loop_ck in H; rewrite H; simpl.
    apply grouped_count; [exact Hnd |].
    apply single_space_operands; assumption. }
  split; [exact Hck |].
  unfold _convert_operator_operation_to_qutip.
  rewrite (no_expansion operands Hone).
  destruct (times_loop rec operands mapping (local_factors fs) [] 0)
    as [[by_space ck] | e] eqn:El; simpl; [| reflexivity].
  rewrite (Hck by_space ck eq_refl), Nat.eqb_refl; reflexivity.
Qed.

End ProductClaims.

Section Factoring.
Context `{Sc : Scalars} `{Qt : @Qutip Sc} `{Alg : @Algebra Sc}.

Lemma PyVal_eq_refl (v : PyVal) : PyVal_eq v v.
Proof. destruct v; simpl; [reflexivity | split; reflexivity]. Qed.

Lemma prod_single (v : PyVal) :
  exists v', prod [v] = Ok v' /\ PyVal_eq v' v.
Proof.
  destruct v as [x | q]; simpl.
  - eexists; split; [reflexivity |]; simpl; apply cmul_1_l.
  - eexists; split; [reflexivity |]; simpl.
    split; [apply mat_scale_1 | reflexivity].
Qed.

Lemma kron2_eq (a a' b b' : Qobj) :
  Qobj_eq a a' -> Qobj_eq b b' -> Qobj_eq (kron2 a b) (kron2 a' b').
Proof.
  intros [Ha Hda] [Hb Hdb]; unfold Qobj_eq, kron2; simpl.
  rewrite Ha, Hda, Hb, Hdb; split; reflexivity.
Qed.

Lemma fold_kron2_eq (qs qs' : list Qobj) :
  Forall2 Qobj_eq qs qs' ->
  forall q q', Qobj_eq q q' -> Qobj_eq (fold_left kron2 qs q) (fold_left kron2 qs' q').
Proof.
  induction 1 as [| x y l l' Hxy _ IH]; intros q q' Hq; simpl; [exact Hq |].
  apply IH, kron2_eq; assumption.
Qed.

Lemma as_qobjs_eq (l l' : list PyVal) :
  Forall2 PyVal_eq l l' ->
  match as_qobjs l, as_qobjs l' with
  | Some qs, Some qs' => Forall2 Qobj_eq qs qs'
  | None, None => True
  | _, _ => False
  end.
Proof.
  induction 1 as [| x y l l' Hxy _ IH]; simpl; [constructor |].
  destruct x as [cx | qx], y as [cy | qy]; simpl in Hxy; try contradiction; [exact I |].
  destruct (as_qobjs l), (as_qobjs l'); try contradiction; [| exact I].
  constructor; assumption.
Qed.

Lemma tensor_eq (l l' : list PyVal) :
  Forall2 PyVal_eq l l' -> result_eq (tensor l) (tensor l').
Proof.
  intros H; pose proof (as_qobjs_eq l l' H) as Hq.
  unfold tensor.
  destruct H as [| x y l l' Hxy Hl]; [reflexivity |].
  destruct (as_qobjs (x :: l)) as [qs |], (as_qobjs (y :: l')) as [qs' |];
    try contradiction; [| reflexivity].
  destruct Hq as [| q q' qs qs' Hq Hqs]; [reflexivity |].
  simpl; apply fold_kron2_eq; assumption.
Qed.

Lemma times_loop_two
  (rec : Expr -> option HilbertSpace -> option Mapping -> result PyVal)
  (operands : list Expr) (A B : Expr) (l1 l2 : LocalSpace)
  (mapping : option Mapping) (a b : PyVal) :
  (forall ls, on_space operands ls =
              if ls_eqb l1 ls then [A] else if ls_eqb l2 ls then [B] else []) ->
  rec A (Some (space A)) mapping = Ok a ->
  rec B (Some (space B)) mapping = Ok b ->
  forall fs acc k,
  exists vs ck,
    times_loop rec operands mapping fs acc k = Ok (acc ++ vs, ck) /\
    Forall2 PyVal_eq vs (map (slot l1 l2 a b) fs).
Proof.
  intros Hon Ha Hb.
  induction fs as [| ls rest IH]; intros acc k; simpl.
  - exists [], k; rewrite app_nil_r; split; [reflexivity | constructor].
  - fold (on_space operands ls); rewrite Hon; unfold slot at 1.
    destruct (ls_eqb l1 ls) eqn:E1; [| destruct (ls_eqb l2 ls) eqn:E2].
    + simpl mapM; rewrite Ha; cbn [bind List.length Nat.eqb negb].
      destruct (prod_single a) as [a' [Hp He]].
      rewrite Hp; cbn [bind].
      destruct (IH (acc ++ [a']) (k + 1)) as [vs [ck [Hl Hv]]].
      exists (a' :: vs), ck; split.
      * rewrite Hl, <- app_assoc; reflexivity.
      * constructor; assumption.
    + simpl mapM; rewrite Hb; cbn [bind List.length Nat.eqb negb].
      destruct (prod_single b) as [b' [Hp He]].
      rewrite Hp; cbn [bind].
      destruct (IH (acc ++ [b']) (k + 1)) as [vs [ck [Hl Hv]]].
      exists (b' :: vs), ck; split.
      * rewrite Hl, <- app_assoc; reflexivity.
      * constructor; assumption.
    + simpl.
      destruct (IH (acc ++ [PQobj (qeye (ls_dimension ls))]) k) as [vs [ck [Hl Hv]]].
      exists (PQobj (qeye (ls_dimension ls)) :: vs), ck; split.
      * rewrite Hl, <- app_assoc; reflexivity.
      * constructor; [apply PyVal_eq_refl | assumption].
Qed.

End Factoring.

Section FactoringClaim.
Context `{Sc : Scalars} `{Qt : @Qutip Sc} `{Alg : @Algebra Sc}.

Lemma convert_times_unfold (fuel : nat) (operands : list Expr) (fs : HilbertSpace)
  (mapping : option Mapping) :
  is_tensor_factor_of (space (OperatorTimes operands)) fs = true ->
  mapping_get mapping (OperatorTimes operands) = None ->
  convert_to_qutip (S fuel) (OperatorTimes operands) (Some fs) mapping =
  _convert_operator_operation_to_qutip (convert_to_qutip fuel)
    (OperatorTimes operands) fs mapping.
Proof.
  intros Hf Hm.
  change (convert_to_qutip (S fuel) (OperatorTimes operands) (Some fs) mapping)
    with (if negb (is_tensor_factor_of (space (OperatorTimes operands)) fs)
          then Raise (mkErr ValueError "expr must be in full_space")
          else match mapping_get mapping (OperatorTimes operands) with
               | Some (MQobj ret) => Ok (PQobj ret)
               | Some (MCallable ret) => Ok (PQobj (ret (OperatorTimes operands)))
               | Some MOther => Raise (mkErr AssertionError "callable(ret)")
               | None => _convert_operator_operation_to_qutip (convert_to_qutip fuel)
                           (OperatorTimes operands) fs mapping
               end).
  rewrite Hf, Hm; reflexivity.
Qed.

Lemma product_of_two (fuel : nat) (operands : list Expr) (A B : Expr)
  (l1 l2 : LocalSpace) (fs : HilbertSpace) (mapping : option Mapping) (a b : PyVal) :
  operands = [A; B] \/ operands = [B; A] ->
  l1 <> l2 ->
  NoDup (local_factors fs) -> In l1 fs -> In l2 fs ->
  space A = [l1] -> space B = [l2] ->
  mapping_get mapping (OperatorTimes operands) = None ->
  convert_to_qutip fuel A (Some [l1]) mapping = Ok a ->
  convert_to_qutip fuel B (Some [l2]) mapping = Ok b ->
  result_eq (convert_to_qutip (S fuel) (OperatorTimes operands) (Some fs) mapping)
            (tensor (map (slot l1 l2 a b) (local_factors fs))).
Proof.
  intros Hops Hne Hnd H1 H2 HA HB Hm Ha Hb.
  assert (Hone : Forall (fun o => List.length (space o) = 1) operands).
  { destruct Hops; subst operands; repeat constructor; rewrite ?HA, ?HB; reflexivity. }
  assert (Hfac : is_tensor_factor_of (space (OperatorTimes operands)) fs = true).
  { apply is_tensor_factor_of_incl; intros s Hs.
    destruct Hops; subst operands; simpl in Hs; rewrite HA, HB in Hs;
      rewrite !hs_tensor_In in Hs; simpl in Hs;
      intuition (subst; assumption). }
  assert (Hon : forall ls, on_space operands ls =
                  if ls_eqb l1 ls then [A] else if ls_eqb l2 ls then [B] else []).
  { intros ls; unfold on_space.
    destruct Hops; subst operands; simpl; rewrite HA, HB, !hs_eqb_single;
      destruct (ls_eqb l1 ls) eqn:E1, (ls_eqb l2 ls) eqn:E2; try reflexivity;
      apply ls_eqb_eq in E1, E2; subst; contradiction. }
  rewrite (convert_times_unfold fuel operands fs mapping Hfac Hm).
  destruct (product_assertion_holds (convert_to_qutip fuel) operands mapping fs
              Hnd Hone Hfac) as [_ ->].
  rewrite <- HA in Ha; rewrite <- HB in Hb.
  destruct (times_loop_two (convert_to_qutip fuel) operands A B l1 l2 mapping a b
              Hon Ha Hb (local_factors fs) [] 0) as [vs [ck [Hl Hv]]].
  rewrite Hl; simpl bind; simpl fst.
  apply tensor_eq; exact Hv.
Qed.

Lemma NoDup_pair (l1 l2 : LocalSpace) : l1 <> l2 -> NoDup [l1; l2].
Proof.
  intros Hne; constructor; [intros [H | []]; congruence |].
  constructor; [intros [] | constructor].
Qed.

(** C1: for [A] acting on the local space [l1] and [B] on a distinct
    local space [l2], the product converted in an ambient space is, in
    either operand order, the tensor product over the local factors of the
    ambient space in their canonical order, with the converted [A] at
    [l1], the converted [B] at [l2] and the identity at every other
    factor; in the ambient space [l1 (x) l2] it is the tensor product of
    the two separately converted factors. *)
Theorem product_factoring (fuel : nat) (A B : Expr) (l1 l2 : LocalSpace)
  (fs : HilbertSpace) (mapping : option Mapping) (a b : PyVal) :
  l1 <> l2 ->
  NoDup (local_factors fs) -> In l1 fs -> In l2 fs ->
  space A = [l1] -> space B = [l2] ->
  mapping_get mapping (OperatorTimes [A; B]) = None ->
  mapping_get mapping (OperatorTimes [B; A]) = None ->
  convert_to_qutip fuel A (Some [l1]) mapping = Ok a ->
  convert_to_qutip fuel B (Some [l2]) mapping = Ok b ->
  result_eq (convert_to_qutip (S fuel) (OperatorTimes [A; B]) (Some fs) mapping)
            (tensor (map (slot l1 l2 a b) (local_factors fs))) /\
  result_eq (convert_to_qutip (S fuel) (OperatorTimes [B; A]) (Some fs) mapping)
            (tensor (map (slot l1 l2 a b) (local_factors fs))) /\
  result_eq (convert_to_qutip (S fuel) (OperatorTimes [A; B])
               (Some (hs_tensor [l1] [l2])) mapping)
            (if String.leb (ls_name l1) (ls_name l2)
             then tensor [a; b] else tensor [b; a]) /\
  result_eq (convert_to_qutip (S fuel) (OperatorTimes [B; A])
               (Some (hs_tensor [l1] [l2])) mapping)
            (if String.leb (ls_name l1) (ls_name l2)
             then tensor [a; b] else tensor [b; a]).
Proof.
  intros Hne Hnd H1 H2 HA HB Hm1 Hm2 Ha Hb.
  split; [apply (product_of_two fuel [A; B] A B l1 l2 fs mapping a b); auto |].
  split; [apply (product_of_two fuel [B; A] A B l1 l2 fs mapping a b); auto |].
  assert (E12 : ls_eqb l1 l2 = false) by (apply ls_eqb_neq; exact Hne).
  assert (E21 : ls_eqb l2 l1 = false) by (apply ls_eqb_neq; congruence).
  assert (Hs : forall ops, ops = [A; B] \/ ops = [B; A] ->
             mapping_get mapping (OperatorTimes ops) = None ->
             result_eq (convert_to_qutip (S fuel) (OperatorTimes ops)
                          (Some (hs_tensor [l1] [l2])) mapping)
                       (if String.leb (ls_name l1) (ls_name l2)
                        then tensor [a; b] else tensor [b; a])).
  { intros ops Hops Hm.
    unfold hs_tensor; simpl fold_right; rewrite E12.
    destruct (String.leb (ls_name l1) (ls_name l2)).
    - replace (tensor [a; b]) with (tensor (map (slot l1 l2 a b) (local_factors [l1; l2])))
        by (unfold slot, local_factors; simpl; rewrite !ls_eqb_refl, E12; reflexivity).
      apply (product_of_two fuel ops A B l1 l2 [l1; l2] mapping a b);
        unfold local_factors; simpl; auto using NoDup_pair.
    - replace (tensor [b; a]) with (tensor (map (slot l1 l2 a b) (local_factors [l2; l1])))
        by (unfold slot, local_factors; simpl; rewrite !ls_eqb_refl, E12; reflexivity).
      apply (product_of_two fuel ops A B l1 l2 [l2; l1] mapping a b);
        unfold local_factors; simpl; auto using NoDup_pair. }
  split; apply Hs; auto.
Qed.

End FactoringClaim.

(** ** The space check *)

Section SpaceCheck.
Context `{Sc : Scalars} `{Qt : @Qutip Sc} `{Alg : @Algebra Sc}.

Lemma bind_never {A B : Type} (r : result A) (k : A -> result B) (E : PyErr) :
  r <> Raise E ->
  (forall a, r = Ok a -> k a <> Raise E) ->
  bind r k <> Raise E.
Proof.
  intros Hr Hk; destruct r as [a | e]; simpl.
  - apply Hk; reflexivity.
  - intros H; apply Hr; inversion H; reflexivity.
Qed.

Lemma mapM_never {A B : Type} (f : A -> result B) (l : list A) (E : PyErr) :
  (forall a, In a l -> f a <> Raise E) -> mapM f l <> Raise E.
Proof.
  induction l as [| a l IH]; intros Hf; simpl; [discriminate |].
  apply bind_never; [apply Hf; left; reflexivity |].
  intros b _; apply bind_never.
  - apply IH; intros x Hx; apply Hf; right; exact Hx.
  - intros bs _; discriminate.
Qed.

Lemma py_add_never (a b : PyVal) : py_add a b <> Raise space_error.
Proof.
  destruct a, b; simpl; try discriminate.
  unfold qadd; destruct (dims_eqb _ _); simpl; discriminate.
Qed.

Lemma py_mul_never (a b : PyVal) : py_mul a b <> Raise space_error.
Proof.
  destruct a, b; simpl; try discriminate.
  unfold qmul; destruct (list_nat_eqb _ _); simpl; discriminate.
Qed.

Lemma py_reduce_never (f : PyVal -> PyVal -> result PyVal) (l : list PyVal) (acc : PyVal) :
  (forall a b, f a b <> Raise space_error) ->
  py_reduce f l acc <> Raise space_error.
Proof.
  intros Hf; revert acc; induction l as [| v l IH]; intros acc; simpl; [discriminate |].
  apply bind_never; [apply Hf | intros a _; apply IH].
Qed.

Lemma tensor_never (l : list PyVal) : tensor l <> Raise space_error.
Proof.
  unfold tensor; destruct l as [| v l]; [discriminate |].
  destruct (as_qobjs (v :: l)) as [[| q qs] |]; discriminate.
Qed.

Lemma index_never {A B : Type} (eqb : A -> B -> bool) (l : list A) (x : B) :
  index eqb l x <> Raise space_error.
Proof.
  unfold index; generalize 0.
  induction l as [| y l IH]; intros k; simpl; [discriminate |].
  destruct (eqb y x); [discriminate | apply IH].
Qed.

Lemma basis_never (n i : nat) : basis n i <> Raise space_error.
Proof. unfold basis; destruct (i <? n); discriminate. Qed.

Lemma complex_never (e : SExpr) : complex e <> Raise space_error.
Proof. unfold complex; destruct (evalf e); discriminate. Qed.

Lemma cannot_convert_never (expr : Expr) :
  @Raise PyVal (cannot_convert expr) <> Raise space_error.
Proof. unfold cannot_convert, space_error; simpl; discriminate. Qed.

Lemma sum_gen_never (f : Expr -> result PyVal) (operands : list Expr) (acc : PyVal) :
  (forall op, In op operands -> f op <> Raise space_error) ->
  sum_gen f operands acc <> Raise space_error.
Proof.
  revert acc; induction operands as [| op rest IH]; intros acc Hf; simpl; [discriminate |].
  apply bind_never; [apply Hf; left; reflexivity |].
  intros v _; apply bind_never; [apply py_add_never |].
  intros acc' _; apply IH; intros x Hx; apply Hf; right; exact Hx.
Qed.

Section WithRec.
Variable rec : Expr -> option HilbertSpace -> option Mapping -> result PyVal.

Lemma times_loop_never (operands : list Expr) (mapping : option Mapping)
  (all_spaces : list LocalSpace) (by_space : list PyVal) (ck : nat) :
  (forall o, In o operands -> rec o (Some (space o)) mapping <> Raise space_error) ->
  times_loop rec operands mapping all_spaces by_space ck <> Raise space_error.
Proof.
  intros Hrec; revert by_space ck.
  induction all_spaces as [| ls rest IH]; intros by_space ck; simpl; [discriminate |].
  apply bind_never.
  - apply mapM_never; intros o Ho.
    apply filter_In in Ho; apply Hrec, Ho.
  - intros ls_ops _.
    destruct (negb (List.length ls_ops =? 0)); [| apply IH].
    apply bind_never; [apply py_reduce_never, py_mul_never | intros p _; apply IH].
Qed.

Lemma local_operator_never (expr : Expr) (fs : HilbertSpace) (mapping : option Mapping) :
  rec expr (Some (space expr)) mapping <> Raise space_error ->
  _convert_local_operator_to_qutip rec expr fs mapping <> Raise space_error.
Proof.
  intros Hrec; unfold _convert_local_operator_to_qutip.
  destruct (negb (hs_eqb fs (space expr))).
  - apply bind_never; [apply index_never |].
    intros i _; apply bind_never; [exact Hrec |].
    intros own _; apply tensor_never.
  - destruct expr; try apply cannot_convert_never; try discriminate.
    + apply bind_never; [apply complex_never | intros; discriminate].
    + apply bind_never; [apply index_never |].
      intros ik _; apply bind_never; [apply basis_never |].
      intros ket _; apply bind_never; [apply index_never |].
      intros ij _; apply bind_never; [apply basis_never |].
      intros b _; apply bind_never; [| intros; discriminate].
      unfold qmul; destruct (list_nat_eqb _ _); discriminate.
Qed.

Lemma ket_never (expr : Expr) (fs : HilbertSpace) (mapping : option Mapping) :
  rec expr (Some (space expr)) mapping <> Raise space_error ->
  _convert_ket_to_qutip rec expr fs mapping <> Raise space_error.
Proof.
  intros Hrec; unfold _convert_ket_to_qutip.
  destruct (negb (hs_eqb fs (space expr))).
  - apply bind_never; [apply index_never |].
    intros i _; apply bind_never; [exact Hrec |].
    intros own _; apply bind_never; [discriminate | intros; apply tensor_never].
  - destruct expr; try apply cannot_convert_never.
    + apply bind_never; [apply index_never |].
      intros i _; apply bind_never; [apply basis_never | intros; discriminate].
    + apply bind_never; [apply complex_never | intros; discriminate].
Qed.

Lemma operator_operation_never (expr : Expr) (fs : HilbertSpace)
  (mapping : option Mapping) :
  (forall e, is_tensor_factor_of (space e) fs = true ->
             rec e (Some fs) mapping <> Raise space_error) ->
  (forall e, rec e (Some (space e)) mapping <> Raise space_error) ->
  is_tensor_factor_of (space (expand expr)) (space expr) = true ->
  is_tensor_factor_of (space expr) fs = true ->
  _convert_operator_operation_to_qutip rec expr fs mapping <> Raise space_error.
Proof.
  intros Hfs Hown Hexp Hfac.
  destruct expr; try apply cannot_convert_never; simpl.
  - apply sum_gen_never; intros op Hop; apply Hfs.
    apply is_tensor_factor_of_incl; intros s Hs.
    apply is_tensor_factor_of_incl in Hfac; apply Hfac.
    simpl; apply (operand_space_incl op operands Hop); exact Hs.
  - destruct (existsb _ operands).
    + destruct (Expr_eqb _ _); [simpl; discriminate |].
      apply Hfs; eapply is_tensor_factor_of_trans; eassumption.
    + apply bind_never.
      * apply times_loop_never; intros o _; apply Hown.
      * intros [by_space ck] _.
        destruct (ck =? List.length operands); [apply tensor_never | discriminate].
  - discriminate.
  - apply bind_never; [apply Hfs; exact Hfac |].
    intros v _; destruct (dimension fs <=? DENSE_DIMENSION_LIMIT); [| discriminate].
    apply bind_never; [destruct v; discriminate | intros; discriminate].
  - apply bind_never; [apply Hfs; exact Hfac |].
    intros v _; destruct (dimension fs <=? DENSE_DIMENSION_LIMIT); [| discriminate].
    apply bind_never; [destruct v; discriminate |].
    intros mo _; destruct (svd (data mo)) as [[U s] Vh].
    destruct s; discriminate.
Qed.

End WithRec.

Lemma convert_never_space_error :
  (forall e, is_tensor_factor_of (space (expand e)) (space e) = true) ->
  forall fuel expr fs mapping,
    is_tensor_factor_of (space expr) fs = true ->
    convert_to_qutip fuel expr (Some fs) mapping <> Raise space_error.
Proof.
  intros Hexp; induction fuel as [| fuel IH]; intros expr fs mapping Hfac;
    [discriminate |].
  simpl; unfold convert_step.
  rewrite Hfac; simpl negb; cbv iota.
  destruct (mapping_get mapping expr) as [[q | f |] |]; try discriminate.
  assert (Hown : forall e, convert_to_qutip fuel e (Some (space e)) mapping
                           <> Raise space_error)
    by (intros e; apply IH, is_tensor_factor_of_refl).
  destruct expr;
    try (apply local_operator_never; apply Hown);
    try (apply ket_never; apply Hown);
    try (apply operator_operation_never;
         [intros e He; apply IH; exact He | exact Hown | apply Hexp | exact Hfac]).
  - destruct (List.length (local_factors fs) =? 0); [simpl; discriminate |].
    apply tensor_never.
  - apply tensor_never.
  - apply cannot_convert_never.
  - apply bind_never; [apply complex_never |].
    intros c _; apply bind_never; [apply IH; exact Hfac |].
    intros v _; apply py_mul_never.
  - discriminate.
Qed.

(** X21: for the operator expressions and the basis and coherent-state
    kets, with an explicit ambient space: the conversion raises the error
    of the space check when the space of the expression is not a tensor
    factor of the ambient space, whatever the mapping holds (the check
    comes before the lookup); and when the space of the expression is a
    tensor factor of the ambient space, no call of the recursion raises
    that error, provided that expanding an expression does not take it
    out of its space. *)
Theorem space_check_first :
  (forall e, is_tensor_factor_of (space (expand e)) (space e) = true) ->
  forall fuel expr fs mapping,
    (is_tensor_factor_of (space expr) fs = false ->
     convert_to_qutip (S fuel) expr (Some fs) mapping =
     Raise (mkErr ValueError "expr must be in full_space")) /\
    (is_tensor_factor_of (space expr) fs = true ->
     convert_to_qutip fuel expr (Some fs) mapping <>
     Raise (mkErr ValueError "expr must be in full_space")).
Proof.
  intros Hexp fuel expr fs mapping; split.
  - intros Hf; simpl; unfold convert_step.
    rewrite Hf; reflexivity.
  - apply convert_never_space_error; exact Hexp.
Qed.

End SpaceCheck.

(** ** Pseudo-inverse and null-space projector *)

Section DenseClaims.
Context `{Sc : Scalars} `{Qt : @Qutip Sc} `{Alg : @Algebra Sc}.


Lemma convert_nsp_unfold (fuel : nat) (operand : Expr) (fs : HilbertSpace)
  (mapping : option Mapping) :
  is_tensor_factor_of (space operand) fs = true ->
  mapping_get mapping (NullSpaceProjector operand) = None ->
  convert_to_qutip (S fuel) (NullSpaceProjector operand) (Some fs) mapping =
  _convert_operator_operation_to_qutip (convert_to_qutip fuel)
    (NullSpaceProjector operand) fs mapping.
Proof.
  intros Hf Hm; simpl; unfold convert_step; simpl space.
  rewrite Hf, Hm; reflexivity.
Qed.


End DenseClaims.

(** ** Fuel: a result obtained with some fuel is obtained with more *)

Section Monotone.
Context `{Sc : Scalars} `{Qt : @Qutip Sc} `{Alg : @Algebra Sc}.

Lemma bind_ok {A B : Type} (r : result A) (k : A -> result B) (v : B) :
  bind r k = Ok v -> exists a, r = Ok a /\ k a = Ok v.
Proof.
  destruct r as [a | e]; simpl; [| discriminate].
  intros H; exists a; split; [reflexivity | exact H].
Qed.

Lemma mapM_mono {A B : Type} (f g : A -> result B) (l : list A) (bs : list B) :
  (forall a b, f a = Ok b -> g a = Ok b) ->
  mapM f l = Ok bs -> mapM g l = Ok bs.
Proof.
  intros Hfg; revert bs; induction l as [| a l IH]; intros bs; simpl; [auto |].
  intros H.
  apply bind_ok in H as [b [Hb H]].
  apply bind_ok in H as [bs' [Hbs H]].
  rewrite (Hfg a b Hb), (IH bs' Hbs); exact H.
Qed.

Lemma sum_gen_mono (f g : Expr -> result PyVal) (operands : list Expr) :
  (forall a b, f a = Ok b -> g a = Ok b) ->
  forall acc v, sum_gen f operands acc = Ok v -> sum_gen g operands acc = Ok v.
Proof.
  intros Hfg; induction operands as [| op rest IH]; intros acc v; simpl; [auto |].
  intros H.
  apply bind_ok in H as [x [Hx H]].
  apply bind_ok in H as [acc' [Ha H]].
  rewrite (Hfg op x Hx); simpl; rewrite Ha; simpl; apply IH; exact H.
Qed.

Section Step.
Variables rec rec' : Expr -> option HilbertSpace -> option Mapping -> result PyVal.
Hypothesis rec_le : forall e fs m v, rec e fs m = Ok v -> rec' e fs m = Ok v.

Lemma times_loop_mono (operands : list Expr) (mapping : option Mapping)
  (all_spaces : list LocalSpace) :
  forall by_space ck r,
    times_loop rec operands mapping all_spaces by_space ck = Ok r ->
    times_loop rec' operands mapping all_spaces by_space ck = Ok r.
Proof.
  induction all_spaces as [| ls rest IH]; intros by_space ck r; simpl; [auto |].
  intros H.
  apply bind_ok in H as [ls_ops [Hm H]].
  rewrite (mapM_mono _ (fun o => rec' o (Some (space o)) mapping) _ _
             (fun a b => rec_le a (Some (space a)) mapping b) Hm); simpl.
  destruct (negb (List.length ls_ops =? 0)); [| apply IH; exact H].
  apply bind_ok in H as [p [Hp H]].
  rewrite Hp; simpl; apply IH; exact H.
Qed.

Lemma local_operator_mono (expr : Expr) (fs : HilbertSpace) (mapping : option Mapping)
  (v : PyVal) :
  _convert_local_operator_to_qutip rec expr fs mapping = Ok v ->
  _convert_local_operator_to_qutip rec' expr fs mapping = Ok v.
Proof.
  unfold _convert_local_operator_to_qutip.
  destruct (negb (hs_eqb fs (space expr))); [| auto].
  intros H.
  apply bind_ok in H as [i [Hi H]].
  apply bind_ok in H as [own [Ho H]].
  rewrite Hi; simpl; rewrite (rec_le _ _ _ _ Ho); exact H.
Qed.

Lemma ket_mono (expr : Expr) (fs : HilbertSpace) (mapping : option Mapping) (v : PyVal) :
  _convert_ket_to_qutip rec expr fs mapping = Ok v ->
  _convert_ket_to_qutip rec' expr fs mapping = Ok v.
Proof.
  unfold _convert_ket_to_qutip.
  destruct (negb (hs_eqb fs (space expr))); [| auto].
  intros H.
  apply bind_ok in H as [i [Hi H]].
  apply bind_ok in H as [own [Ho H]].
  rewrite Hi; simpl; rewrite (rec_le _ _ _ _ Ho); exact H.
Qed.

Lemma operator_operation_mono (expr : Expr) (fs : HilbertSpace)
  (mapping : option Mapping) (v : PyVal) :
  _convert_operator_operation_to_qutip rec expr fs mapping = Ok v ->
  _convert_operator_operation_to_qutip rec' expr fs mapping = Ok v.
Proof.
  destruct expr; simpl; auto.
  - apply sum_gen_mono; intros a b; apply rec_le.
  - destruct (existsb _ operands).
    + destruct (Expr_eqb _ _); [auto | apply rec_le].
    + intros H.
      apply bind_ok in H as [r [Hr H]].
      rewrite (times_loop_mono _ _ _ _ _ _ Hr); exact H.
  - intros H.
    apply bind_ok in H as [x [Hx H]].
    rewrite (rec_le _ _ _ _ Hx); exact H.
  - intros H.
    apply bind_ok in H as [x [Hx H]].
    rewrite (rec_le _ _ _ _ Hx); exact H.
Qed.

Lemma convert_step_mono (expr : Expr) (full_space : option HilbertSpace)
  (mapping : option Mapping) (v : PyVal) :
  convert_step rec expr full_space mapping = Ok v ->
  convert_step rec' expr full_space mapping = Ok v.
Proof.
  unfold convert_step.
  destruct (negb (is_tensor_factor_of _ _)); [auto |].
  destruct (mapping_get mapping expr) as [[q | f |] |]; auto.
  destruct expr; auto;
    try apply local_operator_mono;
    try apply ket_mono;
    try apply operator_operation_mono.
  intros H.
  apply bind_ok in H as [c [Hc H]].
  apply bind_ok in H as [x [Hx H]].
  rewrite Hc; cbn [bind]; rewrite (rec_le _ _ _ _ Hx); exact H.
Qed.

End Step.

Lemma convert_fuel_S (fuel : nat) :
  forall expr full_space mapping v,
    convert_to_qutip fuel expr full_space mapping = Ok v ->
    convert_to_qutip (S fuel) expr full_space mapping = Ok v.
Proof.
  induction fuel as [| fuel IH]; intros expr full_space mapping v; [discriminate |].
  intros H.
  change (convert_step (convert_to_qutip (S fuel)) expr full_space mapping = Ok v).
  apply (convert_step_mono (convert_to_qutip fuel) (convert_to_qutip (S fuel)) IH).
  exact H.
Qed.

Lemma convert_fuel_le (fuel fuel' : nat) (expr : Expr) (full_space : option HilbertSpace)
  (mapping : option Mapping) (v : PyVal) :
  fuel <= fuel' ->
  convert_to_qutip fuel expr full_space mapping = Ok v ->
  convert_to_qutip fuel' expr full_space mapping = Ok v.
Proof.
  induction 1 as [| m _ IH]; [auto |].
  intros H; apply convert_fuel_S, IH, H.
Qed.

End Monotone.

(** ** Time dependence: the decomposition *)

Section TimeClaims.
Context `{Sc : Scalars} `{Qt : @Qutip Sc} `{Alg : @Algebra Sc}.

Lemma evalf_closed (t : string) (t0 : C) (e : SExpr) :
  (forall x, In x (free_symbols e) -> x = t) ->
  exists v, evalf (subs1 t (SNum t0) e) = Some v.
Proof.
  induction e as [c | y | a IHa b IHb | a IHa b IHb]; simpl; intros Hx.
  - exists c; reflexivity.
  - rewrite (Hx y (or_introl eq_refl)), String.eqb_refl; exists t0; reflexivity.
  - destruct IHa as [x Ex]; [intros; apply Hx, in_or_app; auto |].
    destruct IHb as [y Ey]; [intros; apply Hx, in_or_app; auto |].
    rewrite Ex, Ey; eexists; reflexivity.
  - destruct IHa as [x Ex]; [intros; apply Hx, in_or_app; auto |].
    destruct IHb as [y Ey]; [intros; apply Hx, in_or_app; auto |].
    rewrite Ex, Ey; eexists; reflexivity.
Qed.



Lemma lambdify_value (t : string) (f : SExpr) (t0 : C) :
  (forall x, In x (free_symbols f) -> x = t) ->
  exists v, lambdify t f t0 = SNum v /\ evalf (subs1 t (SNum t0) f) = Some v.
Proof.
  intros Hx; destruct (evalf_closed t t0 f Hx) as [v Hv].
  exists v; unfold lambdify; rewrite Hv; split; reflexivity.
Qed.



End TimeClaims.

(** * Concrete runs in the integer model *)

Module Runs.
Import GaussModel.

Lemma product_factoring_witness :
  sA <> sB /\
  NoDup (local_factors [sA; sB; sC]) /\
  convert_to_qutip 1 (Create sA) (Some [sA]) None = Ok (PQobj (create 2)) /\
  convert_to_qutip 1 (Destroy sB) (Some [sB]) None = Ok (PQobj (destroy 3)) /\
  result_eq
    (convert_to_qutip 2 (OperatorTimes [Destroy sB; Create sA]) (Some [sA; sB; sC]) None)
    (tensor [PQobj (create 2); PQobj (destroy 3); PQobj (qeye 2)]) /\
  result_eq
    (convert_to_qutip 2 (OperatorTimes [Create sA; Destroy sB])
       (Some (hs_tensor [sA] [sB])) None)
    (tensor [PQobj (create 2); PQobj (destroy 3)]).
Proof.
  assert (Hne : sA <> sB) by discriminate.
  assert (Hnd : NoDup (local_factors [sA; sB; sC])).
  { unfold local_factors; repeat constructor; simpl; intuition discriminate. }
  pose proof (@product_factoring GScalars GQutip GAlgebra 1
                (Create sA) (Destroy sB) sA sB [sA; sB; sC] None
                (PQobj (create 2)) (PQobj (destroy 3))
                Hne Hnd (or_introl eq_refl) (or_intror (or_introl eq_refl))
                eq_refl eq_refl eq_refl eq_refl eq_refl eq_refl) as [_ [H2 [H3 _]]].
  repeat split; try assumption; reflexivity.
Defined.



Lemma space_check_first_witness :
  (forall e, is_tensor_factor_of (space (expand e)) (space e) = true) /\
  is_tensor_factor_of (space (Create sA)) [sB] = false /\
  convert_to_qutip 1 (Create sA) (Some [sB])
    (Some (fun _ => Some (MQobj (qeye 2)))) =
  Raise (mkErr ValueError "expr must be in full_space") /\
  convert_to_qutip 1 (Create sA) (Some [sA; sB])
    (Some (fun _ => Some (MQobj (qeye 2)))) <>
  Raise (mkErr ValueError "expr must be in full_space").
Proof.
  assert (Hexp : forall e : Expr, is_tensor_factor_of (space (expand e)) (space e) = true)
    by (intros e; apply is_tensor_factor_of_refl).
  split; [exact Hexp |].
  split; [reflexivity |].
  split.
  - apply (@space_check_first GScalars GQutip GAlgebra Hexp 0 (Create sA) [sB]
             (Some (fun _ => Some (MQobj (qeye 2))))).
    reflexivity.
  - apply (@space_check_first GScalars GQutip GAlgebra Hexp 1 (Create sA) [sA; sB]
             (Some (fun _ => Some (MQobj (qeye 2))))).
    reflexivity.
Defined.

Lemma ket_embedding_witness :
  index String.eqb (ls_basis sA) "1" = Ok 1 /\
  In sA [sA; sB] /\
  [sA; sB] <> [sA] /\
  convert_to_qutip 1 (BasisKet sA "1") (Some [sA]) None =
    Ok (PQobj {| data := basis_data 2 1; dims := ([2], [1]);
                 isherm := false; type := "ket" |}) /\
  convert_to_qutip 2 (BasisKet sA "1") (Some [sA; sB]) None =
    Raise (mkErr TypeError "unsupported operand type(s) for +: 'list' and 'Qobj'").
Proof.
  split; [reflexivity |].
  split; [left; reflexivity |].
  split; [discriminate |].
  apply (@ket_embedding_raises GScalars GQutip GAlgebra 0 sA "1" 1 [sA; sB]).
  - reflexivity.
  - left; reflexivity.
  - discriminate.
Defined.





Lemma product_assertion_witness :
  NoDup (local_factors [sA; sB; sC]) /\
  Forall (fun o => List.length (space o) = 1) [Create sB; Destroy sA; Create sA] /\
  is_tensor_factor_of (space (OperatorTimes [Create sB; Destroy sA; Create sA]))
    [sA; sB; sC] = true /\
  (forall by_space ck,
     times_loop (convert_to_qutip 1) [Create sB; Destroy sA; Create sA] None
       (local_factors [sA; sB; sC]) [] 0 = Ok (by_space, ck) ->
     ck = 3) /\
  exists by_space,
    times_loop (convert_to_qutip 1) [Create sB; Destroy sA; Create sA] None
      (local_factors [sA; sB; sC]) [] 0 = Ok (by_space, 3).
Proof.
  assert (Hnd : NoDup (local_factors [sA; sB; sC])).
  { unfold local_factors; repeat constructor; simpl; intuition discriminate. }
  assert (Hone : Forall (fun o : Expr => List.length (space o) = 1)
                        [Create sB; Destroy sA; Create sA])
    by (repeat constructor).
  split; [exact Hnd |].
  split; [exact Hone |].
  split; [reflexivity |].
  split.
  - apply (@product_assertion_holds GScalars GQutip GAlgebra (convert_to_qutip 1)
             [Create sB; Destroy sA; Create sA] None [sA; sB; sC] Hnd Hone eq_refl).
  - eexists; vm_compute; reflexivity.
Defined.

(** The operand converts, and the conversion of its adjoint raises. *)
Lemma adjoint_failing_input :
  convert_to_qutip 2 (Create sA) (Some [sA]) None = Ok (PQobj (create 2)) /\
  convert_to_qutip 3 (Adjoint (Create sA)) (Some [sA]) None =
  Raise (mkErr TypeError "Input is not a quantum object").
Proof. split; reflexivity. Qed.

(** The sibling path: a local operator is embedded in a larger space. *)
Lemma local_operator_embedding_run :
  convert_to_qutip 2 (Create sA) (Some [sA; sB]) None =
  tensor [PQobj (create 2); PQobj (qeye 3)].
Proof. reflexivity. Qed.

End Runs.

(** * Further properties of the converter *)

(** ** Embedding of a local operator *)

Section Embedding.
Context `{Sc : Scalars} `{Qt : @Qutip Sc} `{Alg : @Algebra Sc}.

Lemma index_from_split (hs : LocalSpace) (pre post : list LocalSpace) (k : nat) :
  ~ In hs pre ->
  index_from (fun s x => hs_eqb [s] x) [hs] (pre ++ hs :: post) k =
  Ok (k + List.length pre).
Proof.
  revert k; induction pre as [| h t IH]; intros k Hn; simpl.
  - rewrite hs_eqb_single, ls_eqb_refl, Nat.add_0_r; reflexivity.
  - rewrite hs_eqb_single.
    destruct (ls_eqb h hs) eqn:E.
    + apply ls_eqb_eq in E; subst; exfalso; apply Hn; left; reflexivity.
    + rewrite IH by (intros Hc; apply Hn; right; exact Hc).
      f_equal; lia.
Qed.

Lemma hs_eqb_not_single (hs : LocalSpace) (pre post : list LocalSpace) :
  pre ++ post <> [] -> hs_eqb (pre ++ hs :: post) [hs] = false.
Proof.
  intros Hne; apply hs_eqb_neq; intros H.
  destruct pre as [| p pre]; simpl in H.
  - inversion H; subst; apply Hne; reflexivity.
  - inversion H as [[Hp Hrest]].
    destruct pre; discriminate.
Qed.

Lemma firstn_prefix {A : Type} (pre rest : list A) :
  firstn (List.length pre) (pre ++ rest) = pre.
Proof. induction pre as [| a pre IH]; simpl; [destruct rest | rewrite IH]; reflexivity. Qed.

Lemma skipn_prefix {A : Type} (pre post : list A) (x : A) :
  skipn (List.length pre + 1) (pre ++ x :: post) = post.
Proof. induction pre as [| a pre IH]; simpl; [reflexivity | exact IH]. Qed.

(** X1: a local operator on [hs], converted in an ambient space that has
    further local factors, is the tensor product of the identities of the
    factors before [hs], the operator converted in its own space, and the
    identities of the factors after [hs]. *)
Theorem local_operator_embedding (fuel : nat) (expr : Expr) (hs : LocalSpace)
  (pre post : list LocalSpace) (mapping : option Mapping) :
  is_LocalOperator expr = true ->
  space expr = [hs] ->
  ~ In hs pre ->
  pre ++ post <> [] ->
  mapping_get mapping expr = None ->
  convert_to_qutip (S fuel) expr (Some (pre ++ hs :: post)) mapping =
  (own <- convert_to_qutip fuel expr (Some [hs]) mapping ;;
   tensor (qeyes pre ++ [own] ++ qeyes post)).
Proof.
  intros Hloc Hs Hn Hne Hm.
  assert (Hfac : is_tensor_factor_of (space expr) (pre ++ hs :: post) = true).
  { rewrite Hs; apply local_is_factor, in_or_app; right; left; reflexivity. }
  assert (Hstep : convert_to_qutip (S fuel) expr (Some (pre ++ hs :: post)) mapping =
                  _convert_local_operator_to_qutip (convert_to_qutip fuel) expr
                    (pre ++ hs :: post) mapping).
  { simpl; unfold convert_step.
    rewrite Hfac, Hm; simpl negb; cbv iota.
    destruct expr; try discriminate Hloc; reflexivity. }
  rewrite Hstep; unfold _convert_local_operator_to_qutip.
  rewrite Hs, (hs_eqb_not_single hs pre post Hne); simpl negb; cbv iota.
  unfold index, local_factors.
  rewrite (index_from_split hs pre post 0 Hn); simpl bind.
  change (0 + List.length pre) with (List.length pre).
  rewrite firstn_prefix, skipn_prefix; reflexivity.
Qed.

End Embedding.

(** ** Placeholders, ladder operators, mapping *)

Section LeafProperties.
Context `{Sc : Scalars} `{Qt : @Qutip Sc} `{Alg : @Algebra Sc}.

Lemma fold_kron2_dims (qs : list Qobj) (q : Qobj) :
  dims (fold_left kron2 qs q) =
  (fst (dims q) ++ List.concat (map (fun x => fst (dims x)) qs),
   snd (dims q) ++ List.concat (map (fun x => snd (dims x)) qs)).
Proof.
  revert q; induction qs as [| x qs IH]; intros q; simpl.
  - rewrite !app_nil_r; destruct (dims q); reflexivity.
  - rewrite IH; simpl; rewrite <- !app_assoc; reflexivity.
Qed.

Lemma as_qobjs_map (qs : list Qobj) : as_qobjs (map PQobj qs) = Some qs.
Proof. induction qs as [| q qs IH]; simpl; [| rewrite IH]; reflexivity. Qed.

Lemma tensor_qobjs (q : Qobj) (qs : list Qobj) :
  tensor (map PQobj (q :: qs)) = Ok (PQobj (fold_left kron2 qs q)).
Proof.
  unfold tensor; rewrite as_qobjs_map; reflexivity.
Qed.

(** Dimensions of a tensor product of square factors. *)
Lemma tensor_square_dims (q : Qobj) (qs : list Qobj) (d : nat) (ds : list nat) :
  dims q = ([d], [d]) ->
  Forall2 (fun x n => dims x = ([n], [n])) qs ds ->
  dims (fold_left kron2 qs q) = (d :: ds, d :: ds).
Proof.
  intros Hq Hqs; rewrite fold_kron2_dims, Hq; simpl.
  assert (H1 : List.concat (map (fun x => fst (dims x)) qs) = ds /\
               List.concat (map (fun x => snd (dims x)) qs) = ds).
  { induction Hqs as [| x n qs' ds' Hx _ [IH1 IH2]]; simpl; [split; reflexivity |].
    rewrite Hx, IH1, IH2; split; reflexivity. }
  destruct H1 as [-> ->]; reflexivity.
Qed.

Lemma qzeros_dims (n : nat) : dims (qzeros n) = ([n], [n]).
Proof.
  unfold qzeros, Qobj_of_array, nrows, ncols, mat_zeros; simpl.
  rewrite repeat_length.
  destruct n as [| m]; simpl; [reflexivity |].
  rewrite repeat_length; reflexivity.
Qed.

(** X2: the identity and zero placeholders convert exactly when the
    ambient space has a local factor: in the trivial space (also the
    default, their own space) the identity raises the error about missing
    local factors and the zero the error of a tensor product without
    arguments; otherwise both give an object whose dimensions are those
    of the local factors, in order. *)
Theorem placeholders_need_a_factor (fuel : nat) (fs : HilbertSpace) :
  (fs = [] ->
   convert_to_qutip (S fuel) IdentityOperator (Some fs) None =
     Raise (mkErr ValueError
              ("full_space " ++ str_space fs ++ " does not have local factors")%string) /\
   convert_to_qutip (S fuel) IdentityOperator None None =
     Raise (mkErr ValueError
              ("full_space " ++ str_space [] ++ " does not have local factors")%string) /\
   convert_to_qutip (S fuel) ZeroOperator (Some fs) None =
     Raise (mkErr TypeError "Requires at least one input argument")) /\
  (fs <> [] ->
   exists q z,
     convert_to_qutip (S fuel) IdentityOperator (Some fs) None = Ok (PQobj q) /\
     convert_to_qutip (S fuel) ZeroOperator (Some fs) None = Ok (PQobj z) /\
     dims q = (factor_dims fs, factor_dims fs) /\
     dims z = (factor_dims fs, factor_dims fs)).
Proof.
  split.
  - intros ->; repeat split; reflexivity.
  - intros Hne; destruct fs as [| h t]; [contradiction |].
    exists (fold_left kron2 (map (fun s => qeye (ls_dimension s)) t) (qeye (ls_dimension h))),
           (fold_left kron2 (map (fun s => qzeros (ls_dimension s)) t) (qzeros (ls_dimension h))).
    split; [| split; [| split]].
    + change (tensor (qeyes (h :: t)) =
              Ok (PQobj (fold_left kron2 (map (fun s => qeye (ls_dimension s)) t)
                                   (qeye (ls_dimension h))))).
      rewrite <- (tensor_qobjs (qeye (ls_dimension h))).
      unfold qeyes; simpl; rewrite map_map; reflexivity.
    + change (tensor (map (fun s => PQobj (qzeros (ls_dimension s))) (h :: t)) =
              Ok (PQobj (fold_left kron2 (map (fun s => qzeros (ls_dimension s)) t)
                                   (qzeros (ls_dimension h))))).
      rewrite <- (tensor_qobjs (qzeros (ls_dimension h))).
      cbn [map]; rewrite map_map; reflexivity.
    + apply tensor_square_dims; [reflexivity |].
      clear Hne; induction t as [| x t IH]; simpl; constructor;
        [reflexivity | exact IH].
    + apply tensor_square_dims; [apply qzeros_dims |].
      clear Hne; induction t as [| x t IH]; simpl; constructor;
        [apply qzeros_dims | exact IH].
Qed.

Lemma ladder_own_space (fuel : nat) (hs : LocalSpace) :
  convert_to_qutip fuel (Jz hs) (Some [hs]) None =
    convert_to_qutip fuel (Create hs) (Some [hs]) None /\
  convert_to_qutip fuel (Jplus hs) (Some [hs]) None =
    convert_to_qutip fuel (Create hs) (Some [hs]) None /\
  convert_to_qutip fuel (Jminus hs) (Some [hs]) None =
    convert_to_qutip fuel (Destroy hs) (Some [hs]) None.
Proof.
  destruct fuel as [| fuel]; [repeat split; reflexivity |].
  rewrite !convert_local_own by reflexivity.
  unfold _convert_local_operator_to_qutip; simpl space.
  rewrite hs_eqb_refl; repeat split; reflexivity.
Qed.

(** X3: the angular-momentum operators are converted as ladder operators:
    in every ambient space [Jz] and [Jplus] give the result of [Create],
    the matrix [qutip.create(n)], and [Jminus] gives the result of
    [Destroy]. *)
Theorem angular_momentum_as_ladder (fuel : nat) (hs : LocalSpace) (fs : HilbertSpace) :
  convert_to_qutip fuel (Jz hs) (Some fs) None =
    convert_to_qutip fuel (Create hs) (Some fs) None /\
  convert_to_qutip fuel (Jplus hs) (Some fs) None =
    convert_to_qutip fuel (Create hs) (Some fs) None /\
  convert_to_qutip fuel (Jminus hs) (Some fs) None =
    convert_to_qutip fuel (Destroy hs) (Some fs) None /\
  convert_to_qutip (S fuel) (Jz hs) (Some [hs]) None =
    Ok (PQobj (create (ls_dimension hs))).
Proof.
  assert (Hown : convert_to_qutip (S fuel) (Jz hs) (Some [hs]) None =
                 Ok (PQobj (create (ls_dimension hs)))).
  { rewrite convert_local_own by reflexivity.
    unfold _convert_local_operator_to_qutip; simpl space.
    rewrite hs_eqb_refl, dimension_local; reflexivity. }
  split; [| split; [| split; [| exact Hown]]]; clear Hown;
    (destruct fuel as [| fuel]; [reflexivity |]);
    destruct (ladder_own_space fuel hs) as [H1 [H2 H3]];
    simpl; unfold convert_step; simpl space; simpl mapping_get;
    (destruct (negb (is_tensor_factor_of [hs] fs)); [reflexivity |]);
    simpl; unfold _convert_local_operator_to_qutip; simpl space;
    (destruct (negb (hs_eqb fs [hs])); [| reflexivity]);
    match goal with
    | |- bind ?r _ = bind ?r _ => destruct r as [i | e]; [| reflexivity]
    end;
    cbn [bind]; f_equal; assumption.
Qed.

(** X4: an operator symbol, which the converter cannot convert by itself,
    raises the cannot-convert error; when the mapping holds a quantum
    object for it, the conversion returns that object, and a scalar
    multiple of the symbol converts to the scalar multiple of the
    object. *)
Theorem mapping_overrides (fuel : nat) (label : string) (hs fs : HilbertSpace)
  (m : Mapping) (q : Qobj) (coeff : SExpr) (c : C) :
  is_tensor_factor_of hs fs = true ->
  m (OperatorSymbol label hs) = Some (MQobj q) ->
  m (ScalarTimesOperator coeff (OperatorSymbol label hs)) = None ->
  complex coeff = Ok c ->
  convert_to_qutip (S fuel) (OperatorSymbol label hs) (Some fs) None =
    Raise (cannot_convert (OperatorSymbol label hs)) /\
  convert_to_qutip (S fuel) (OperatorSymbol label hs) (Some fs) (Some m) =
    Ok (PQobj q) /\
  convert_to_qutip (S (S fuel)) (ScalarTimesOperator coeff (OperatorSymbol label hs))
    (Some fs) (Some m) = Ok (PQobj (smul c q)).
Proof.
  intros Hf Hm Hm' Hc.
  assert (H2 : convert_to_qutip (S fuel) (OperatorSymbol label hs) (Some fs) (Some m) =
               Ok (PQobj q)).
  { simpl; unfold convert_step; simpl space; simpl mapping_get.
    rewrite Hf, Hm; reflexivity. }
  split; [| split; [exact H2 |]].
  - simpl; unfold convert_step; simpl space; simpl mapping_get.
    rewrite Hf; reflexivity.
  - change (convert_step (convert_to_qutip (S fuel))
              (ScalarTimesOperator coeff (OperatorSymbol label hs)) (Some fs) (Some m) =
            Ok (PQobj (smul c q))).
    unfold convert_step; simpl space; simpl mapping_get.
    rewrite Hf, Hm', Hc; simpl negb; cbv iota; cbn [bind].
    match goal with
    | |- bind ?r _ = _ => replace r with (Ok (PQobj q)) by (symmetry; exact H2)
    end.
    reflexivity.
Qed.

End LeafProperties.

(** ** Products: factors on one space, factors on no space *)

Section ProductProperties.
Context `{Sc : Scalars} `{Qt : @Qutip Sc} `{Alg : @Algebra Sc}.

(** X5: two operators on the same local space, converted in that space,
    give the matrix product of the two converted factors in operand order
    (compared by dimensions and entries), and the error of the matrix
    product when the dimensions of the factors do not match. *)
Theorem product_on_one_space (fuel : nat) (A B : Expr) (l : LocalSpace)
  (mapping : option Mapping) (a b : Qobj) :
  space A = [l] -> space B = [l] ->
  mapping_get mapping (OperatorTimes [A; B]) = None ->
  convert_to_qutip fuel A (Some [l]) mapping = Ok (PQobj a) ->
  convert_to_qutip fuel B (Some [l]) mapping = Ok (PQobj b) ->
  result_eq (convert_to_qutip (S fuel) (OperatorTimes [A; B]) (Some [l]) mapping)
            (r <- qmul a b ;; Ok (PQobj r)).
Proof.
  intros HA HB Hm Ha Hb.
  assert (Hfac : is_tensor_factor_of (space (OperatorTimes [A; B])) [l] = true).
  { apply is_tensor_factor_of_incl; intros s Hs; simpl in Hs.
    rewrite HA, HB in Hs; rewrite !hs_tensor_In in Hs; simpl in Hs.
    simpl; intuition. }
  rewrite (convert_times_unfold fuel [A; B] [l] mapping Hfac Hm).
  unfold _convert_operator_operation_to_qutip.
  cbn [existsb]; rewrite HA, HB; cbn [List.length Nat.ltb Nat.leb orb].
  unfold local_factors; cbn [times_loop filter].
  rewrite HA, HB, hs_eqb_refl; cbn [mapM].
  rewrite <- HA in Ha; rewrite <- HB in Hb.
  match goal with
  | |- result_eq (bind (bind (bind ?r _) _) _) _ =>
      replace r with (Ok (PQobj a)) by (symmetry; exact Ha)
  end.
  cbn [bind].
  match goal with
  | |- result_eq (bind (bind (bind (bind ?r _) _) _) _) _ =>
      replace r with (Ok (PQobj b)) by (symmetry; exact Hb)
  end.
  cbn [bind mapM List.length Nat.eqb negb].
  unfold prod; cbn [py_reduce py_mul bind].
  unfold qmul; cbn [smul dims data].
  destruct (list_nat_eqb (snd (dims a)) (fst (dims b))); cbn [bind].
  - cbn [times_loop app Nat.add Nat.eqb List.length tensor as_qobjs fold_left].
    simpl; rewrite mat_scale_1; split; reflexivity.
  - reflexivity.
Qed.

Lemma trivial_not_on_space (o : Expr) (ls : LocalSpace) :
  space o = [] -> hs_eqb (space o) [ls] = false.
Proof. intros ->; reflexivity. Qed.

Lemma grouped_count_nontrivial (operands : list Expr) (all_spaces : list LocalSpace) :
  NoDup all_spaces ->
  Forall (fun o => space o = [] \/ exists ls, In ls all_spaces /\ space o = [ls])
         operands ->
  list_sum (map (fun ls => List.length (on_space operands ls)) all_spaces) =
  List.length (filter (fun o => negb (List.length (space o) =? 0)) operands).
Proof.
  intros Hnd; induction 1 as [| o ops Ho Hall IH].
  - simpl; induction all_spaces as [| h t IHt]; simpl; auto.
    apply IHt; inversion Hnd; assumption.
  - destruct Ho as [Ht | [ls0 [Hin Hs]]].
    + cbn [filter]; rewrite Ht; cbn [List.length Nat.eqb negb]; rewrite <- IH.
      f_equal; apply map_ext; intros ls.
      unfold on_space; cbn [filter]; rewrite Ht; reflexivity.
    + cbn [filter]; rewrite Hs; cbn [List.length Nat.eqb negb]; rewrite <- IH.
      transitivity
        (list_sum (map (fun ls => (if ls_eqb ls0 ls then 1 else 0) +
                                  List.length (on_space ops ls)) all_spaces)).
      * f_equal; apply map_ext; intros ls.
        unfold on_space; cbn [filter]; rewrite Hs, hs_eqb_single.
        destruct (ls_eqb ls0 ls); reflexivity.
      * rewrite list_sum_map_add, (count_one ls0 all_spaces Hnd Hin); reflexivity.
Qed.

Lemma filter_length_lt {A : Type} (f : A -> bool) (l : list A) (x : A) :
  In x l -> f x = false -> List.length (filter f l) < List.length l.
Proof.
  induction l as [| a l IH]; intros Hin Hf; [destruct Hin |].
  simpl; destruct Hin as [-> | Hin].
  - rewrite Hf; pose proof (filter_length_le f l); lia.
  - specialize (IH Hin Hf); destruct (f a); simpl; lia.
Qed.

(** X6: in a product whose operands act on at most one local space each,
    the grouping counts exactly the operands that act on a local space.
    An operand with the trivial space is used for no factor, so the
    consistency check fails: when the loop over the factors completes,
    the product branch raises the assertion error. *)
Theorem product_assertion_fails_on_trivial_operand
  (rec : Expr -> option HilbertSpace -> option Mapping -> result PyVal)
  (operands : list Expr) (mapping : option Mapping) (fs : HilbertSpace) (o : Expr) :
  NoDup (local_factors fs) ->
  Forall (fun x => List.length (space x) <= 1) operands ->
  is_tensor_factor_of (space (OperatorTimes operands)) fs = true ->
  In o operands -> space o = [] ->
  (forall by_space ck,
     times_loop rec operands mapping (local_factors fs) [] 0 = Ok (by_space, ck) ->
     ck = List.length (filter (fun x => negb (List.length (space x) =? 0)) operands) /\
     ck < List.length operands /\
     _convert_operator_operation_to_qutip rec (OperatorTimes operands) fs mapping =
       Raise (mkErr AssertionError "ck == len(expr.operands)")) /\
  (forall v,
     _convert_operator_operation_to_qutip rec (OperatorTimes operands) fs mapping <> Ok v).
Proof.
  intros Hnd Hone Hfac Hin Ho.
  assert (Hshape : Forall (fun x => space x = [] \/
                      exists ls, In ls (local_factors fs) /\ space x = [ls]) operands).
  { apply is_tensor_factor_of_incl in Hfac.
    apply Forall_forall; intros x Hx.
    rewrite Forall_forall in Hone; specialize (Hone x Hx).
    destruct (space x) as [| ls [| ? ?]] eqn:Es; [left; reflexivity | | simpl in Hone; lia].
    right; exists ls; split; [| reflexivity].
    apply Hfac; simpl; apply (operand_space_incl x operands Hx).
    rewrite Es; left; reflexivity. }
  assert (Hnoexp : existsb (fun op => 1 <? List.length (space op)) operands = false).
  { clear -Hone; induction Hone as [| x ops Hx _ IH]; [reflexivity |].
    simpl; rewrite IH, orb_false_r; apply Nat.ltb_ge; exact Hx. }
  assert (Hck : forall by_space ck,
             times_loop rec operands mapping (local_factors fs) [] 0 = Ok (by_space, ck) ->
             ck = List.length (filter (fun x => negb (List.length (space x) =? 0)) operands) /\
             ck < List.length operands).
  { intros by_space ck H.
    apply times_loop_ck in H; simpl in H.
    rewrite (grouped_count_nontrivial operands (local_factors fs) Hnd Hshape) in H.
    split; [exact H |].
    rewrite H; apply (filter_length_lt _ operands o Hin).
    rewrite Ho; reflexivity. }
  split.
  - intros by_space ck H.
    destruct (Hck by_space ck H) as [H1 H2].
    split; [exact H1 | split; [exact H2 |]].
    unfold _convert_operator_operation_to_qutip.
    rewrite Hnoexp, H; cbn [bind].
    assert (E : (ck =? List.length operands) = false) by (apply Nat.eqb_neq; lia).
    rewrite E; reflexivity.
  - intros v; unfold _convert_operator_operation_to_qutip.
    rewrite Hnoexp.
    destruct (times_loop rec operands mapping (local_factors fs) [] 0)
      as [[by_space ck] | e] eqn:El; cbn [bind]; [| discriminate].
    destruct (Hck by_space ck eq_refl) as [_ H2].
    assert (E : (ck =? List.length operands) = false) by (apply Nat.eqb_neq; lia).
    rewrite E; discriminate.
Qed.

End ProductProperties.

Module LeafRuns.
Import GaussModel.

Lemma local_operator_embedding_witness :
  is_LocalOperator (Create sB) = true /\
  ~ In sB [sA] /\
  [sA] ++ [sC] <> [] /\
  convert_to_qutip 2 (Create sB) (Some [sA; sB; sC]) None =
  tensor [PQobj (qeye 2); PQobj (create 3); PQobj (qeye 2)].
Proof.
  assert (Hn : ~ In sB [sA]) by (simpl; intuition discriminate).
  assert (Hne : [sA] ++ [sC] <> []) by discriminate.
  split; [reflexivity |].
  split; [exact Hn |].
  split; [exact Hne |].
  apply (@local_operator_embedding GScalars GQutip GAlgebra 1 (Create sB) sB
           [sA] [sC] None eq_refl eq_refl Hn Hne eq_refl).
Defined.

Lemma mapping_overrides_witness :
  is_tensor_factor_of [sA] [sA] = true /\
  mapX (OperatorSymbol "X" [sA]) = Some (MQobj sigma11) /\
  mapX (ScalarTimesOperator (@SNum GScalars (3, 0)%Z) (OperatorSymbol "X" [sA])) = None /\
  convert_to_qutip 1 (OperatorSymbol "X" [sA]) (Some [sA]) None =
    Raise (mkErr ValueError "Cannot convert 'X' of type OperatorSymbol") /\
  convert_to_qutip 1 (OperatorSymbol "X" [sA]) (Some [sA]) (Some mapX) =
    Ok (PQobj sigma11) /\
  convert_to_qutip 2
    (ScalarTimesOperator (@SNum GScalars (3, 0)%Z) (OperatorSymbol "X" [sA]))
    (Some [sA]) (Some mapX) =
    Ok (PQobj (smul ((3, 0)%Z : @C GScalars) sigma11)).
Proof.
  split; [reflexivity |].
  split; [reflexivity |].
  split; [reflexivity |].
  apply (@mapping_overrides GScalars GQutip GAlgebra 0 "X" [sA] [sA] mapX sigma11
           (@SNum GScalars (3, 0)%Z) (3, 0)%Z eq_refl eq_refl eq_refl eq_refl).
Defined.

Lemma product_on_one_space_witness :
  space (Create sA) = [sA] /\
  convert_to_qutip 1 (Create sA) (Some [sA]) None = Ok (PQobj (create 2)) /\
  convert_to_qutip 1 (Destroy sA) (Some [sA]) None = Ok (PQobj (destroy 2)) /\
  result_eq
    (convert_to_qutip 2 (OperatorTimes [Create sA; Destroy sA]) (Some [sA]) None)
    (r <- qmul (create 2) (destroy 2) ;; Ok (PQobj r)).
Proof.
  split; [reflexivity |].
  split; [reflexivity |].
  split; [reflexivity |].
  apply (@product_on_one_space GScalars GQutip GAlgebra 1 (Create sA) (Destroy sA) sA
           None (create 2) (destroy 2) eq_refl eq_refl eq_refl eq_refl eq_refl).
Defined.

Lemma product_assertion_fails_witness :
  NoDup (local_factors [sA]) /\
  Forall (fun x => List.length (space x) <= 1) [IdentityOperator; Create sA] /\
  is_tensor_factor_of (space (OperatorTimes [IdentityOperator; Create sA])) [sA] = true /\
  convert_to_qutip 2 (OperatorTimes [IdentityOperator; Create sA]) (Some [sA]) None =
    Raise (mkErr AssertionError "ck == len(expr.operands)") /\
  forall v,
    _convert_operator_operation_to_qutip (convert_to_qutip 1)
      (OperatorTimes [IdentityOperator; Create sA]) [sA] None <> Ok v.
Proof.
  assert (Hnd : NoDup (local_factors [sA])).
  { unfold local_factors; repeat constructor; simpl; intuition. }
  assert (Hone : Forall (fun x : Expr => List.length (space x) <= 1)
                        [IdentityOperator; Create sA])
    by (repeat constructor).
  split; [exact Hnd |].
  split; [exact Hone |].
  split; [reflexivity |].
  split; [reflexivity |].
  apply (@product_assertion_fails_on_trivial_operand GScalars GQutip GAlgebra
           (convert_to_qutip 1) [IdentityOperator; Create sA] None [sA]
           IdentityOperator Hnd Hone eq_refl (or_introl eq_refl) eq_refl).
Defined.

End LeafRuns.

(** ** Sums *)

Section SumProperties.
Context `{Sc : Scalars} `{Qt : @Qutip Sc} `{Alg : @Algebra Sc}.

Lemma ceqb_refl (c : C) : ceqb c c = true.
Proof. apply ceqb_eq; reflexivity. Qed.

Lemma sum_gen_reduce (f : Expr -> result PyVal) (operands : list Expr) (vs : list PyVal) :
  mapM f operands = Ok vs ->
  forall acc, sum_gen f operands acc = py_reduce py_add vs acc.
Proof.
  revert vs; induction operands as [| op rest IH]; intros vs H acc; simpl in *.
  - inversion H; reflexivity.
  - apply bind_ok in H as [v [Hv H]].
    apply bind_ok in H as [vs' [Hvs H]].
    inversion H; subst; rewrite Hv; simpl.
    destruct (py_add acc v) as [acc' | e]; simpl; [apply IH; exact Hvs | reflexivity].
Qed.

Lemma convert_plus_unfold (fuel : nat) (operands : list Expr) (fs : HilbertSpace)
  (mapping : option Mapping) :
  is_tensor_factor_of (space (OperatorPlus operands)) fs = true ->
  mapping_get mapping (OperatorPlus operands) = None ->
  convert_to_qutip (S fuel) (OperatorPlus operands) (Some fs) mapping =
  sum_gen (fun op => convert_to_qutip fuel op (Some fs) mapping) operands (PNum c0).
Proof.
  intros Hf Hm.
  change (convert_step (convert_to_qutip fuel) (OperatorPlus operands) (Some fs) mapping =
          sum_gen (fun op => convert_to_qutip fuel op (Some fs) mapping) operands (PNum c0)).
  unfold convert_step; rewrite Hf, Hm; reflexivity.
Qed.

(** X7: a sum converts every summand in the same ambient space and adds
    the results from left to right; the start value 0 of the sum leaves
    the first converted summand unchanged.  A sum without summands
    converts to the number 0, not to a quantum object. *)
Theorem sum_conversion (fuel : nat) (operands : list Expr) (fs : HilbertSpace)
  (mapping : option Mapping) (vs : list PyVal) :
  is_tensor_factor_of (space (OperatorPlus operands)) fs = true ->
  mapping_get mapping (OperatorPlus operands) = None ->
  mapM (fun op => convert_to_qutip fuel op (Some fs) mapping) operands = Ok vs ->
  convert_to_qutip (S fuel) (OperatorPlus operands) (Some fs) mapping =
  match vs with
  | [] => Ok (PNum c0)
  | PQobj a :: rest => py_reduce py_add rest (PQobj a)
  | PNum x :: rest => py_reduce py_add rest (PNum (cadd c0 x))
  end.
Proof.
  intros Hf Hm Hv.
  rewrite (convert_plus_unfold fuel operands fs mapping Hf Hm).
  rewrite (sum_gen_reduce _ operands vs Hv).
  destruct vs as [| [x | a] rest]; simpl; [reflexivity | reflexivity |].
  rewrite ceqb_refl; reflexivity.
Qed.

Lemma scalar_times_unfold (fuel : nat) (coeff : SExpr) (term : Expr) (fs : HilbertSpace) :
  is_tensor_factor_of (space term) fs = true ->
  convert_to_qutip (S fuel) (ScalarTimesOperator coeff term) (Some fs) None =
  (c <- complex coeff ;;
   v <- convert_to_qutip fuel term (Some fs) None ;;
   py_mul (PNum c) v).
Proof.
  intros Hf.
  change (convert_step (convert_to_qutip fuel) (ScalarTimesOperator coeff term)
            (Some fs) None =
          (c <- complex coeff ;;
           v <- convert_to_qutip fuel term (Some fs) None ;;
           py_mul (PNum c) v)).
  unfold convert_step; simpl space; rewrite Hf; reflexivity.
Qed.

(** X8: linearity.  For numerical coefficients [x], [y] and operators [A],
    [B] that convert in the ambient space, [x * A + y * B] converts to the
    sum of the scalar multiples of the converted operators. *)
Theorem conversion_is_linear (fuel : nat) (A B : Expr) (x y : SExpr) (cx cy : C)
  (a b : Qobj) (fs : HilbertSpace) :
  is_tensor_factor_of (space A) fs = true ->
  is_tensor_factor_of (space B) fs = true ->
  complex x = Ok cx -> complex y = Ok cy ->
  convert_to_qutip fuel A (Some fs) None = Ok (PQobj a) ->
  convert_to_qutip fuel B (Some fs) None = Ok (PQobj b) ->
  convert_to_qutip (S (S fuel))
    (OperatorPlus [ScalarTimesOperator x A; ScalarTimesOperator y B]) (Some fs) None =
  (r <- qadd (smul cx a) (smul cy b) ;; Ok (PQobj r)).
Proof.
  intros HA HB Hx Hy Ha Hb.
  assert (Hfac : is_tensor_factor_of
                   (space (OperatorPlus [ScalarTimesOperator x A; ScalarTimesOperator y B]))
                   fs = true).
  { apply is_tensor_factor_of_incl; intros s Hs; simpl in Hs.
    rewrite !hs_tensor_In in Hs.
    apply is_tensor_factor_of_incl in HA, HB.
    destruct Hs as [Hs | [Hs | []]]; [apply HA | apply HB]; exact Hs. }
  rewrite (sum_conversion (S fuel) _ fs None
             [PQobj (smul cx a); PQobj (smul cy b)] Hfac eq_refl).
  - cbn [py_reduce py_add]; destruct (qadd (smul cx a) (smul cy b)); reflexivity.
  - cbn [mapM].
    rewrite !scalar_times_unfold by assumption.
    rewrite Hx, Hy; cbn [bind].
    replace (convert_to_qutip fuel A (Some fs) None) with (Ok (PQobj a))
      by (symmetry; exact Ha).
    replace (convert_to_qutip fuel B (Some fs) None) with (Ok (PQobj b))
      by (symmetry; exact Hb).
    reflexivity.
Qed.

End SumProperties.

(** ** Dimensions of the result *)

Section ResultDims.
Context `{Sc : Scalars} `{Qt : @Qutip Sc} `{Alg : @Algebra Sc}.

Lemma index_from_nth {A B : Type} (eqb : A -> B -> bool) (x : B) (l : list A) (k i : nat) :
  index_from eqb x l k = Ok i ->
  exists pre y post,
    l = pre ++ y :: post /\ List.length pre = i - k /\ eqb y x = true /\ k <= i.
Proof.
  revert k; induction l as [| a l IH]; intros k; simpl; [discriminate |].
  destruct (eqb a x) eqn:E.
  - intros H; inversion H; subst.
    exists [], a, l; rewrite Nat.sub_diag; auto.
  - intros H; destruct (IH (S k) H) as [pre [y [post [Hl [Hlen [Hy Hle]]]]]].
    exists (a :: pre), y, post; subst l; simpl.
    repeat split; auto; lia.
Qed.

Lemma has_dims_list (vs : list PyVal) (ds : list nat) :
  Forall2 (fun v n => has_dims [n] v) vs ds ->
  exists qs, vs = map PQobj qs /\ Forall2 (fun x n => dims x = ([n], [n])) qs ds.
Proof.
  induction 1 as [| v n vs ds [q [-> Hq]] _ [qs [-> Hqs]]].
  - exists []; split; [reflexivity | constructor].
  - exists (q :: qs); split; [reflexivity | constructor; assumption].
Qed.

Lemma tensor_has_dims (vs : list PyVal) (ds : list nat) (v : PyVal) :
  Forall2 (fun v n => has_dims [n] v) vs ds ->
  tensor vs = Ok v -> has_dims ds v.
Proof.
  intros H Ht.
  destruct (has_dims_list vs ds H) as [qs [-> Hqs]].
  destruct Hqs as [| q n qs ds Hq Hqs]; [discriminate Ht |].
  rewrite tensor_qobjs in Ht; inversion Ht; subst.
  eexists; split; [reflexivity |].
  apply tensor_square_dims; assumption.
Qed.

Lemma qeyes_has_dims (l : list LocalSpace) :
  Forall2 (fun v n => has_dims [n] v) (qeyes l) (factor_dims l).
Proof.
  induction l as [| s l IH]; simpl; constructor; [| exact IH].
  eexists; split; reflexivity.
Qed.

Lemma py_mul_has_dims (D : list nat) (a b v : PyVal) :
  has_dims D b ->
  (has_dims D a \/ exists c, a = PNum c) ->
  py_mul a b = Ok v -> has_dims D v.
Proof.
  intros [qb [-> Hb]] [[qa [-> Ha]] | [c ->]]; simpl.
  - unfold qmul; destruct (list_nat_eqb _ _); simpl; [| discriminate].
    intros H; inversion H; subst.
    eexists; split; [reflexivity |]; simpl; rewrite Ha, Hb; reflexivity.
  - intros H; inversion H; subst.
    eexists; split; [reflexivity |]; exact Hb.
Qed.

Lemma prod_has_dims (D : list nat) (vs : list PyVal) (v : PyVal) :
  vs <> [] ->
  Forall (has_dims D) vs ->
  prod vs = Ok v -> has_dims D v.
Proof.
  unfold prod; intros Hne Hall.
  assert (Hgen : forall acc,
             (has_dims D acc \/ (exists c, acc = PNum c) /\ vs <> []) ->
             py_reduce py_mul vs acc = Ok v -> has_dims D v).
  { clear Hne; induction Hall as [| x vs Hx Hvs IH]; intros acc Hacc; simpl.
    - destruct Hacc as [Hacc | [_ Hc]]; [| contradiction].
      intros H; inversion H; subst; exact Hacc.
    - intros H; apply bind_ok in H as [acc' [Hm H]].
      apply (IH acc'); [left | exact H].
      apply (py_mul_has_dims D acc x acc' Hx); [| exact Hm].
      destruct Hacc as [Hacc | [Hc _]]; [left | right]; assumption. }
  apply Hgen; right; split; [eexists; reflexivity | exact Hne].
Qed.

Lemma py_add_has_dims (D : list nat) (a b v : PyVal) :
  has_dims D b ->
  (has_dims D a \/ a = PNum c0) ->
  py_add a b = Ok v -> has_dims D v.
Proof.
  intros [qb [-> Hb]] [[qa [-> Ha]] | ->]; simpl.
  - unfold qadd; destruct (dims_eqb _ _); simpl; [| discriminate].
    intros H; inversion H; subst.
    eexists; split; [reflexivity |]; exact Ha.
  - rewrite ceqb_refl; intros H; inversion H; subst.
    eexists; split; [reflexivity |]; exact Hb.
Qed.

Lemma sum_gen_has_dims (D : list nat) (f : Expr -> result PyVal)
  (operands : list Expr) (v : PyVal) :
  operands <> [] ->
  (forall op x, In op operands -> f op = Ok x -> has_dims D x) ->
  sum_gen f operands (PNum c0) = Ok v -> has_dims D v.
Proof.
  intros Hne Hf.
  assert (Hgen : forall acc,
             (has_dims D acc \/ acc = PNum c0 /\ operands <> []) ->
             sum_gen f operands acc = Ok v -> has_dims D v).
  { clear Hne; induction operands as [| op rest IH]; intros acc Hacc; simpl.
    - destruct Hacc as [Hacc | [_ Hc]]; [| contradiction].
      intros H; inversion H; subst; exact Hacc.
    - intros H; apply bind_ok in H as [x [Hx H]].
      apply bind_ok in H as [acc' [Ha H]].
      apply (IH (fun o y Ho => Hf o y (or_intror Ho)) acc'); [left | exact H].
      apply (py_add_has_dims D acc x acc'); [| | exact Ha].
      + apply (Hf op x); [left; reflexivity | exact Hx].
      + destruct Hacc as [Hacc | [Hc _]]; [left | right]; assumption. }
  apply Hgen; right; split; [reflexivity | exact Hne].
Qed.

Lemma mapM_Forall {A B : Type} (f : A -> result B) (P : B -> Prop) (l : list A)
  (bs : list B) :
  (forall a b, In a l -> f a = Ok b -> P b) ->
  mapM f l = Ok bs -> Forall P bs.
Proof.
  revert bs; induction l as [| a l IH]; intros bs Hf; simpl.
  - intros H; inversion H; constructor.
  - intros H; apply bind_ok in H as [b [Hb H]].
    apply bind_ok in H as [bs' [Hbs H]].
    inversion H; subst; constructor.
    + apply (Hf a b); [left; reflexivity | exact Hb].
    + apply IH; [| exact Hbs].
      intros x y Hx; apply Hf; right; exact Hx.
Qed.

Lemma times_loop_has_dims
  (rec : Expr -> option HilbertSpace -> option Mapping -> result PyVal)
  (operands : list Expr) (mapping : option Mapping) :
  (forall o v, In o operands -> rec o (Some (space o)) mapping = Ok v ->
               has_dims (factor_dims (space o)) v) ->
  forall all_spaces by_space ck by_space' ck',
    times_loop rec operands mapping all_spaces by_space ck = Ok (by_space', ck') ->
    exists vs, by_space' = by_space ++ vs /\
               Forall2 (fun v n => has_dims [n] v) vs (factor_dims all_spaces).
Proof.
  intros Hrec; induction all_spaces as [| ls rest IH];
    intros by_space ck by_space' ck'; simpl.
  - intros H; inversion H; subst.
    exists []; rewrite app_nil_r; split; [reflexivity | constructor].
  - intros H; apply bind_ok in H as [ls_ops [Hm H]].
    assert (Hall : Forall (has_dims [ls_dimension ls]) ls_ops).
    { apply (mapM_Forall (fun o => rec o (Some (space o)) mapping)
               (has_dims [ls_dimension ls])
               (filter (fun o => hs_eqb (space o) [ls]) operands) ls_ops); [| exact Hm].
      intros o v Ho Hv.
      apply filter_In in Ho as [Hin Hsp].
      apply hs_eqb_eq in Hsp.
      pose proof (Hrec o v Hin Hv) as Hd.
      rewrite Hsp in Hd; exact Hd. }
    destruct (negb (List.length ls_ops =? 0)) eqn:El.
    + apply bind_ok in H as [p [Hp H]].
      destruct (IH _ _ _ _ H) as [vs [Hby Hvs]].
      exists (p :: vs); split; [rewrite Hby, <- app_assoc; reflexivity |].
      constructor; [| exact Hvs].
      apply (prod_has_dims [ls_dimension ls] ls_ops p); [| exact Hall | exact Hp].
      intros ->; discriminate El.
    + destruct (IH _ _ _ _ H) as [vs [Hby Hvs]].
      exists (PQobj (qeye (ls_dimension ls)) :: vs); split;
        [rewrite Hby, <- app_assoc; reflexivity |].
      constructor; [| exact Hvs].
      eexists; split; reflexivity.
Qed.

Lemma mat_diag_shape (d : list C) :
  nrows (mat_diag d) = List.length d /\ ncols (mat_diag d) = List.length d.
Proof.
  unfold nrows, ncols, mat_diag.
  rewrite length_map, length_seq; split; [reflexivity |].
  destruct d as [| x d]; [reflexivity |].
  simpl; rewrite length_map, length_seq; reflexivity.
Qed.

Lemma local_operator_has_dims
  (rec : Expr -> option HilbertSpace -> option Mapping -> result PyVal)
  (expr : Expr) (fs : HilbertSpace) (v : PyVal) :
  is_LocalOperator expr = true ->
  (forall x, rec expr (Some (space expr)) None = Ok x ->
             has_dims (factor_dims (space expr)) x) ->
  _convert_local_operator_to_qutip rec expr fs None = Ok v ->
  has_dims (factor_dims fs) v.
Proof.
  intros Hloc Hrec; unfold _convert_local_operator_to_qutip.
  destruct (hs_eqb fs (space expr)) eqn:E; cbn [negb].
  - apply hs_eqb_eq in E.
    destruct expr; try discriminate Hloc; simpl in E; subst fs;
      unfold factor_dims; cbn [map]; rewrite dimension_local;
      try (intros H; inversion H; subst; eexists; split; reflexivity).
    + intros H; apply bind_ok in H as [p [Hp H]].
      inversion H; subst.
      eexists; split; [reflexivity |].
      unfold Qobj_of_array; cbn [dims].
      destruct (mat_diag_shape
                  (map (fun k => cis (cmul p (c_of_nat k))) (seq 0 (ls_dimension hs))))
        as [-> ->].
      rewrite length_map, length_seq; reflexivity.
    + intros H; apply bind_ok in H as [ik [Hik H]].
      apply bind_ok in H as [ket [Hket H]].
      apply bind_ok in H as [ij [Hij H]].
      apply bind_ok in H as [b [Hb H]].
      apply bind_ok in H as [r [Hr H]].
      inversion H; subst.
      unfold basis in Hket, Hb.
      destruct (ik <? ls_dimension hs); [| discriminate].
      destruct (ij <? ls_dimension hs); [| discriminate].
      inversion Hket; inversion Hb; subst.
      unfold qmul in Hr; simpl in Hr; inversion Hr; subst.
      eexists; split; reflexivity.
  - intros H; apply bind_ok in H as [i [Hi H]].
    apply bind_ok in H as [own [Hown H]].
    unfold index in Hi.
    destruct (index_from_nth _ _ _ _ _ Hi) as [pre [y [post [Hfs [Hlen [Hy _]]]]]].
    rewrite Nat.sub_0_r in Hlen; subst i.
    unfold local_factors in *; rewrite Hfs in H.
    rewrite firstn_prefix, skipn_prefix in H.
    apply hs_eqb_eq in Hy.
    specialize (Hrec own Hown); rewrite <- Hy in Hrec.
    rewrite Hfs; unfold factor_dims; rewrite map_app; cbn [map].
    refine (tensor_has_dims _ _ v _ H).
    apply Forall2_app; [apply qeyes_has_dims |].
    constructor; [exact Hrec | apply qeyes_has_dims].
Qed.

Lemma qzeros_has_dims (l : list LocalSpace) :
  Forall2 (fun v n => has_dims [n] v)
          (map (fun s => PQobj (qzeros (ls_dimension s))) l) (factor_dims l).
Proof.
  induction l as [| s l IH]; simpl; constructor; [| exact IH].
  eexists; split; [reflexivity | apply qzeros_dims].
Qed.

Lemma shape_no_expansion (operands : list Expr) :
  forallb (fun o => operator_shape o && (List.length (space o) <=? 1)) operands = true ->
  existsb (fun op => 1 <? List.length (space op)) operands = false.
Proof.
  induction operands as [| o ops IH]; simpl; [reflexivity |].
  rewrite !andb_true_iff; intros [[_ Hl] Hall].
  rewrite (IH Hall), orb_false_r.
  apply Nat.ltb_ge, Nat.leb_le; exact Hl.
Qed.

(** X9: when an operator expression built from placeholders, local
    operators, non-empty sums, products of factors on at most one local
    space, scalar multiples, pseudo-inverses and null-space projectors
    converts (without mapping), the result is a quantum object whose row
    and column dimensions are the dimensions of the local factors of the
    ambient space, in their order. *)
Theorem conversion_dims (fuel : nat) (expr : Expr) (fs : HilbertSpace) (v : PyVal) :
  operator_shape expr = true ->
  convert_to_qutip fuel expr (Some fs) None = Ok v ->
  has_dims (factor_dims fs) v.
Proof.
  revert expr fs v; induction fuel as [| fuel IH]; intros expr fs v Hshape;
    [discriminate |].
  change (convert_step (convert_to_qutip fuel) expr (Some fs) None = Ok v ->
          has_dims (factor_dims fs) v).
  unfold convert_step.
  destruct (negb (is_tensor_factor_of (space expr) fs)); [discriminate |].
  cbn [mapping_get].
  destruct expr; cbn [is_LocalOperator is_OperatorOperation is_Ket];
    try discriminate Hshape;
    try match goal with
        | |- _convert_local_operator_to_qutip _ ?e _ _ = _ -> _ =>
            intros H;
            apply (local_operator_has_dims (convert_to_qutip fuel) e fs v eq_refl
                     (fun x Hx => IH e (space e) x eq_refl Hx) H)
        end.
  - destruct (List.length (local_factors fs) =? 0); [discriminate |].
    apply tensor_has_dims, qeyes_has_dims.
  - apply tensor_has_dims, qzeros_has_dims.
  - discriminate.
  - cbn [operator_shape] in Hshape; apply andb_true_iff in Hshape as [Hne Hall].
    unfold _convert_operator_operation_to_qutip.
    apply sum_gen_has_dims.
    + intros ->; discriminate Hne.
    + intros op x Hop Hx.
      rewrite forallb_forall in Hall.
      apply (IH op fs x (Hall op Hop) Hx).
  - cbn [operator_shape] in Hshape.
    unfold _convert_operator_operation_to_qutip.
    rewrite (shape_no_expansion operands Hshape).
    intros H; apply bind_ok in H as [[by_space ck] [Hl H]].
    destruct (ck =? List.length operands); [| discriminate].
    assert (Hops : forall o x, In o operands ->
                     convert_to_qutip fuel o (Some (space o)) None = Ok x ->
                     has_dims (factor_dims (space o)) x).
    { intros o x Ho Hx.
      rewrite forallb_forall in Hshape.
      specialize (Hshape o Ho); apply andb_true_iff in Hshape as [Hs _].
      apply (IH o (space o) x Hs Hx). }
    destruct (times_loop_has_dims (convert_to_qutip fuel) operands None
                Hops _ _ _ _ _ Hl) as [vs [Hby Hvs]].
    simpl in Hby; subst by_space.
    apply (tensor_has_dims vs); assumption.
  - cbn [operator_shape] in Hshape.
    intros H; apply bind_ok in H as [c [Hc H]].
    apply bind_ok in H as [x [Hx H]].
    apply (py_mul_has_dims _ (PNum c) x v); [| right; eexists; reflexivity | exact H].
    apply (IH _ _ _ Hshape Hx).
  - unfold _convert_operator_operation_to_qutip; cbn [bind qutip_dag]; discriminate.
  - cbn [operator_shape] in Hshape.
    unfold _convert_operator_operation_to_qutip.
    intros H; apply bind_ok in H as [x [Hx H]].
    destruct (dimension fs <=? DENSE_DIMENSION_LIMIT); [| discriminate].
    destruct (IH _ _ _ Hshape Hx) as [mo [-> Hmo]].
    cbn [expect_qobj bind] in H; inversion H; subst.
    eexists; split; [reflexivity | exact Hmo].
  - cbn [operator_shape] in Hshape.
    unfold _convert_operator_operation_to_qutip.
    intros H; apply bind_ok in H as [x [Hx H]].
    destruct (dimension fs <=? DENSE_DIMENSION_LIMIT); [| discriminate].
    destruct (IH _ _ _ Hshape Hx) as [mo [-> Hmo]].
    cbn [expect_qobj bind] in H.
    destruct (svd (data mo)) as [[U s] Vh].
    destruct s as [| s0 s]; [discriminate |].
    inversion H; subst.
    eexists; split; [reflexivity | exact Hmo].
  - discriminate.
Qed.

End ResultDims.

Module SumRuns.
Import GaussModel.

Lemma sum_conversion_witness :
  is_tensor_factor_of (space (OperatorPlus [Create sA; Destroy sA])) [sA] = true /\
  mapM (fun op => convert_to_qutip 1 op (Some [sA]) None) [Create sA; Destroy sA] =
    Ok [PQobj (create 2); PQobj (destroy 2)] /\
  convert_to_qutip 2 (OperatorPlus [Create sA; Destroy sA]) (Some [sA]) None =
    py_reduce py_add [PQobj (destroy 2)] (PQobj (create 2)).
Proof.
  split; [reflexivity |].
  split; [reflexivity |].
  apply (@sum_conversion GScalars GQutip GAlgebra 1 [Create sA; Destroy sA] [sA] None
           [PQobj (create 2); PQobj (destroy 2)] eq_refl eq_refl eq_refl).
Defined.

Lemma conversion_is_linear_witness :
  complex two_t = Raise (mkErr TypeError "can't convert expression to complex") /\
  complex (@SNum GScalars (2, 0)%Z) = Ok ((2, 0)%Z : @C GScalars) /\
  convert_to_qutip 3
    (OperatorPlus [ScalarTimesOperator (@SNum GScalars (2, 0)%Z) (Create sA);
                   ScalarTimesOperator (@SNum GScalars (3, 0)%Z) (Destroy sA)])
    (Some [sA]) None =
  (r <- qadd (smul ((2, 0)%Z : @C GScalars) (create 2))
             (smul ((3, 0)%Z : @C GScalars) (destroy 2)) ;;
   Ok (PQobj r)).
Proof.
  split; [reflexivity |].
  split; [reflexivity |].
  apply (@conversion_is_linear GScalars GQutip GAlgebra 1 (Create sA) (Destroy sA)
           (@SNum GScalars (2, 0)%Z) (@SNum GScalars (3, 0)%Z) (2, 0)%Z (3, 0)%Z
           (create 2) (destroy 2) [sA] eq_refl eq_refl eq_refl eq_refl eq_refl eq_refl).
Defined.

Lemma conversion_dims_witness :
  operator_shape (OperatorTimes [Create sB; Destroy sA]) = true /\
  exists v,
    convert_to_qutip 2 (OperatorTimes [Create sB; Destroy sA]) (Some [sA; sB; sC]) None =
      Ok v /\
    has_dims [2; 3; 2] v.
Proof.
  split; [reflexivity |].
  destruct (convert_to_qutip 2 (OperatorTimes [Create sB; Destroy sA])
              (Some [sA; sB; sC]) None) as [v | e] eqn:E;
    [| vm_compute in E; discriminate E].
  exists v; split; [reflexivity |].
  apply (@conversion_dims GScalars GQutip GAlgebra 2
           (OperatorTimes [Create sB; Destroy sA]) [sA; sB; sC] v eq_refl E).
Defined.

End SumRuns.

(** ** Time dependence: sums, failures, source strings *)

Section TimeProperties.
Context `{Sc : Scalars} `{Qt : @Qutip Sc} `{Alg : @Algebra Sc}.

Lemma static_loop_from (conv : Expr -> result PyVal) (t : string)
  (operands : list Expr) (vs : list PyVal) :
  mapM conv (filter (fun o => negb (mem_symbol t (all_symbols o))) operands) = Ok vs ->
  forall r0,
    static_loop conv t operands [r0] = (r <- py_reduce py_add vs r0 ;; Ok [r]).
Proof.
  revert vs; induction operands as [| o rest IH]; intros vs Hm r0; simpl in *.
  - inversion Hm; reflexivity.
  - destruct (negb (mem_symbol t (all_symbols o))); [| apply IH; exact Hm].
    simpl in Hm.
    apply bind_ok in Hm as [v [Hv Hm]].
    apply bind_ok in Hm as [vs' [Hvs Hm]].
    inversion Hm; subst; rewrite Hv; simpl.
    destruct (py_add r0 v) as [r | e]; simpl; [apply IH; exact Hvs | reflexivity].
Qed.

Lemma static_loop_spec (conv : Expr -> result PyVal) (t : string)
  (operands : list Expr) (vs : list PyVal) :
  mapM conv (filter (fun o => negb (mem_symbol t (all_symbols o))) operands) = Ok vs ->
  static_loop conv t operands [] =
  match vs with
  | [] => Ok []
  | v :: rest => r <- py_reduce py_add rest v ;; Ok [r]
  end.
Proof.
  revert vs; induction operands as [| o rest IH]; intros vs Hm; simpl in *.
  - inversion Hm; reflexivity.
  - destruct (negb (mem_symbol t (all_symbols o))); [| apply IH; exact Hm].
    simpl in Hm.
    apply bind_ok in Hm as [v [Hv Hm]].
    apply bind_ok in Hm as [vs' [Hvs Hm]].
    inversion Hm; subst; rewrite Hv; simpl.
    apply static_loop_from; exact Hvs.
Qed.

Lemma dynamic_loop_spec (tdrec : Expr -> result TDep) (t : string)
  (operands : list Expr) :
  forall acc,
    dynamic_loop tdrec t operands acc =
    (ds <- mapM tdrec (filter (fun o => mem_symbol t (all_symbols o)) operands) ;;
     Ok (acc ++ ds)).
Proof.
  induction operands as [| o rest IH]; intros acc; simpl.
  - rewrite app_nil_r; reflexivity.
  - destruct (mem_symbol t (all_symbols o)); [| apply IH].
    simpl; destruct (tdrec o) as [r | e]; simpl; [| reflexivity].
    rewrite IH.
    destruct (mapM tdrec _) as [ds | e]; simpl; [| reflexivity].
    rewrite <- app_assoc; reflexivity.
Qed.

(** X10: for a time-dependent operator whose expanded form is a sum, the
    decomposition is a list that starts with the sum, from left to right,
    of the converted static terms (no entry when there is no static term)
    and continues with the decomposition of every time-dependent term, in
    operand order; its length is the number of time-dependent terms, plus
    one when there is a static term. *)
Theorem time_dependent_sum (fuel : nat) (op : Expr) (fs : HilbertSpace)
  (t convert_as : string) (operands : list Expr) (vs : list PyVal) :
  mem_symbol t (all_symbols op) = true ->
  expand op = OperatorPlus operands ->
  mapM (fun o => convert_to_qutip fuel o (Some fs) None)
       (filter (fun o => negb (mem_symbol t (all_symbols o))) operands) = Ok vs ->
  _time_dependent_to_qutip (S fuel) op (Some fs) t convert_as =
    (statics <- match vs with
                | [] => Ok []
                | v :: rest => r <- py_reduce py_add rest v ;; Ok [r]
                end ;;
     ds <- mapM (fun o => _time_dependent_to_qutip fuel o (Some fs) t convert_as)
                (filter (fun o => mem_symbol t (all_symbols o)) operands) ;;
     Ok (TDList (map TDObj statics ++ ds))) /\
  (forall l,
     _time_dependent_to_qutip (S fuel) op (Some fs) t convert_as = Ok (TDList l) ->
     List.length l =
     (if List.length vs =? 0 then 0 else 1) +
     List.length (filter (fun o => mem_symbol t (all_symbols o)) operands)).
Proof.
  intros Ht He Hv.
  assert (Heq : _time_dependent_to_qutip (S fuel) op (Some fs) t convert_as =
    (statics <- match vs with
                | [] => Ok []
                | v :: rest => r <- py_reduce py_add rest v ;; Ok [r]
                end ;;
     ds <- mapM (fun o => _time_dependent_to_qutip fuel o (Some fs) t convert_as)
                (filter (fun o => mem_symbol t (all_symbols o)) operands) ;;
     Ok (TDList (map TDObj statics ++ ds)))).
  { cbn [_time_dependent_to_qutip].
    unfold time_dependent_step; rewrite Ht, He.
    rewrite (static_loop_spec _ t operands vs Hv).
    destruct (match vs with
              | [] => Ok []
              | v :: rest => r <- py_reduce py_add rest v ;; Ok [r]
              end) as [statics | e]; cbn [bind]; [| reflexivity].
    rewrite dynamic_loop_spec.
    destruct (mapM _ (filter (fun o => mem_symbol t (all_symbols o)) operands));
      reflexivity. }
  split; [exact Heq |].
  intros l Hl; rewrite Heq in Hl.
  apply bind_ok in Hl as [statics [Hs Hl]].
  apply bind_ok in Hl as [ds [Hd Hl]].
  inversion Hl; subst.
  rewrite length_app, length_map, (mapM_length _ _ _ Hd); f_equal.
  destruct vs as [| v rest]; [inversion Hs; reflexivity |].
  apply bind_ok in Hs as [r [_ Hs]]; inversion Hs; reflexivity.
Qed.

(** X11: a time-dependent operator whose expanded form is neither a sum
    nor a scalar multiple is rejected with the error that documents the
    required structure; nothing is converted, and [convert_as] is not
    examined. *)
Theorem time_dependent_structure_error (fuel : nat) (op : Expr)
  (fs : option HilbertSpace) (t convert_as : string) :
  mem_symbol t (all_symbols op) = true ->
  (forall operands, expand op <> OperatorPlus operands) ->
  (forall coeff term, expand op <> ScalarTimesOperator coeff term) ->
  _time_dependent_to_qutip (S fuel) op fs t convert_as =
  Raise (mkErr ValueError
           "op cannot be expressed in qutip. It must have the structure op = sum_i f_i(t) * op_i").
Proof.
  intros Ht Hp Hs.
  cbn [_time_dependent_to_qutip].
  unfold time_dependent_step; rewrite Ht.
  destruct (expand op) eqn:E; try reflexivity.
  - exfalso; apply (Hp operands); reflexivity.
  - exfalso; apply (Hs coeff e); reflexivity.
Qed.

Lemma re_sub_I_app (a b : string) :
  re_sub_I (a ++ b) = (re_sub_I a ++ re_sub_I b)%string.
Proof.
  induction a as [| c a IH]; simpl; [reflexivity |].
  rewrite IH; destruct (Ascii.eqb c "I"); reflexivity.
Qed.

Lemma re_sub_I_no_I (s : string) :
  ~ In "I"%char (list_ascii_of_string (re_sub_I s)).
Proof.
  induction s as [| c s IH]; simpl; [tauto |].
  destruct (Ascii.eqb c "I") eqn:E; simpl.
  - intros [H | [H | [H | [H | [H | [H | H]]]]]]; try discriminate H.
    apply IH; exact H.
  - intros [H | H]; [| apply IH; exact H].
    subst c; rewrite Ascii.eqb_refl in E; discriminate.
Qed.

Lemma re_sub_I_id (s : string) :
  ~ In "I"%char (list_ascii_of_string s) -> re_sub_I s = s.
Proof.
  induction s as [| c s IH]; simpl; [reflexivity |].
  intros Hn; destruct (Ascii.eqb c "I") eqn:E.
  - apply Ascii.eqb_eq in E; subst; exfalso; apply Hn; left; reflexivity.
  - rewrite IH; [reflexivity |].
    intros H; apply Hn; right; exact H.
Qed.

(** X12: with [convert_as = 'str'] the coefficient is the printed
    expression with every capital I replaced by [(1.0j)]: the string has
    no I left (also where the I is part of a symbol name), a printed
    expression without I is returned unchanged, and the replacement
    works piece by piece. *)
Theorem str_coefficient (t : string) (coeff : SExpr) :
  make_coeff t "str" coeff = Ok (CStr (re_sub_I (str_sexpr coeff))) /\
  ~ In "I"%char (list_ascii_of_string (re_sub_I (str_sexpr coeff))) /\
  (~ In "I"%char (list_ascii_of_string (str_sexpr coeff)) ->
   make_coeff t "str" coeff = Ok (CStr (str_sexpr coeff))) /\
  (forall a b, str_sexpr coeff = (a ++ "I" ++ b)%string ->
     re_sub_I (str_sexpr coeff) = (re_sub_I a ++ "(1.0j)" ++ re_sub_I b)%string).
Proof.
  assert (H1 : make_coeff t "str" coeff = Ok (CStr (re_sub_I (str_sexpr coeff))))
    by reflexivity.
  split; [exact H1 |].
  split; [apply re_sub_I_no_I |].
  split.
  - intros Hn; rewrite H1, (re_sub_I_id _ Hn); reflexivity.
  - intros a b ->; rewrite re_sub_I_app; reflexivity.
Qed.

End TimeProperties.

(** ** SLH triples *)

Section SLHProperties.
Context `{Sc : Scalars} `{Qt : @Qutip Sc} `{Alg : @Algebra Sc}.

(** X13: [SLH_to_qutip] refuses an ambient space that does not contain the
    space of the triple with an [AlgebraError] naming both spaces, before
    anything is converted and whatever the other arguments are.  Without
    ambient space, or with the trivial one, it works in the space of the
    triple, exactly as if that space had been passed, and never raises
    the [AlgebraError]. *)
Theorem SLH_space_check (fuel : nat) (slh : SLH) (fs : HilbertSpace)
  (time_symbol : option string) (convert_as : string) :
  (hs_truthy fs = true ->
   is_tensor_factor_of (slh_space slh) fs = false ->
   SLH_to_qutip fuel slh (Some fs) time_symbol convert_as =
   SLHAlgebraError ("full_space=" ++ str_space fs ++ " needs to " ++
                    "at least include slh.space = " ++ str_space (slh_space slh))%string) /\
  SLH_to_qutip fuel slh None time_symbol convert_as =
    SLH_to_qutip fuel slh (Some (slh_space slh)) time_symbol convert_as /\
  SLH_to_qutip fuel slh (Some TrivialSpace) time_symbol convert_as =
    SLH_to_qutip fuel slh None time_symbol convert_as /\
  (forall msg, SLH_to_qutip fuel slh None time_symbol convert_as <> SLHAlgebraError msg).
Proof.
  split; [| split; [| split]].
  - intros Ht Hf; unfold SLH_to_qutip; rewrite Ht, Hf; reflexivity.
  - unfold SLH_to_qutip.
    rewrite is_tensor_factor_of_refl; simpl negb; cbv iota.
    destruct (hs_truthy (slh_space slh)); reflexivity.
  - reflexivity.
  - intros msg; unfold SLH_to_qutip.
    destruct time_symbol as [t |].
    + destruct (_time_dependent_to_qutip _ _ _ _ _); [| discriminate].
      destruct (mapM _ _); discriminate.
    + destruct (convert_to_qutip _ _ _ _); [| discriminate].
      destruct (mapM _ _); discriminate.
Qed.

Lemma mapM_Forall2_iff {A B : Type} (f : A -> result B) (P : A -> B -> Prop)
  (l : list A) (bs : list B) :
  (forall a b, f a = Ok b <-> P a b) ->
  mapM f l = Ok bs <-> Forall2 P l bs.
Proof.
  intros HP; revert bs; induction l as [| a l IH]; intros bs; simpl.
  - split.
    + intros H; inversion H; constructor.
    + intros H; inversion H; reflexivity.
  - split.
    + intros H; apply bind_ok in H as [b [Hb H]].
      apply bind_ok in H as [bs' [Hbs H]].
      inversion H; subst.
      constructor; [apply HP; exact Hb | apply IH; exact Hbs].
    + intros H; inversion H as [| a' b' l' bs' Hab Hrest]; subst.
      apply HP in Hab; apply IH in Hrest.
      rewrite Hab, Hrest; reflexivity.
Qed.

Lemma SLH_return_iff {A : Type} (r : result A) (m : result (list TDep))
  (wrap : A -> TDep) (H : TDep) (Ls : list TDep) :
  match r with
  | Raise e => SLHRaise e
  | Ok h => match m with
            | Raise e => SLHRaise e
            | Ok ls => SLHReturn (wrap h) ls
            end
  end = SLHReturn H Ls <->
  (exists h, r = Ok h /\ H = wrap h) /\ m = Ok Ls.
Proof.
  destruct r as [h | e], m as [ls | e']; split;
    try discriminate;
    try (intros [[h' [Hh _]] Hm]; discriminate).
  - intros Hr; inversion Hr; subst; split; [exists h; auto | reflexivity].
  - intros [[h' [Hh HH]] Hm]; inversion Hh; inversion Hm; subst; reflexivity.
Qed.

Lemma convert_entry_ok (fuel : nat) (x : LEntry) (full : HilbertSpace) (l : TDep) :
  convert_entry fuel x full = Ok l <->
  exists op v, x = LOperator op /\
               convert_to_qutip fuel op (Some full) None = Ok v /\ l = TDObj v.
Proof.
  destruct x as [op | c]; simpl.
  - split.
    + intros H; apply bind_ok in H as [v [Hv H]]; inversion H; subst.
      exists op, v; auto.
    + intros [op' [v [Hop [Hv Hl]]]]; inversion Hop; subst.
      rewrite Hv; reflexivity.
  - split; [discriminate | intros [op [v [Hop _]]]; discriminate].
Qed.

Lemma time_dependent_entry_ok (fuel : nat) (x : LEntry) (full : HilbertSpace)
  (t convert_as : string) (l : TDep) :
  time_dependent_entry fuel x full t convert_as = Ok l <->
  exists op, x = LOperator op /\
             _time_dependent_to_qutip fuel op (Some full) t convert_as = Ok l.
Proof.
  destruct x as [op | c]; simpl.
  - split.
    + intros H; exists op; auto.
    + intros [op' [Hop Hl]]; inversion Hop; subst; exact Hl.
  - split; [discriminate | intros [op [Hop _]]; discriminate].
Qed.

(** X14: in an ambient space that passes the check ([full] is that space,
    or the space of the triple when the ambient space is trivial), a call
    of [SLH_to_qutip] without time symbol returns [(H, Ls)] exactly when
    [H] is the conversion of the Hamiltonian in [full] and [Ls] lists, in
    order, the conversions in [full] of the entries of [L] that are
    operators; scalar entries are skipped.  With a time symbol it returns
    [(H, Ls)] exactly when [H] is the decomposition of the Hamiltonian and
    [Ls] lists, in order, the decompositions of all entries of [L], which
    therefore must all be operators. *)
Theorem SLH_collapse_operators (fuel : nat) (slh : SLH) (fs : HilbertSpace)
  (convert_as : string) (H : TDep) (Ls : list TDep) :
  (hs_truthy fs = true -> is_tensor_factor_of (slh_space slh) fs = true) ->
  let full := if hs_truthy fs then fs else slh_space slh in
  (SLH_to_qutip fuel slh (Some fs) None convert_as = SLHReturn H Ls <->
   (exists h, convert_to_qutip fuel (slh_H slh) (Some full) None = Ok h /\
              H = TDObj h) /\
   Forall2 (fun x l => exists op v,
              x = LOperator op /\
              convert_to_qutip fuel op (Some full) None = Ok v /\ l = TDObj v)
           (filter is_Operator_entry (slh_L slh)) Ls) /\
  (forall t,
     SLH_to_qutip fuel slh (Some fs) (Some t) convert_as = SLHReturn H Ls <->
     _time_dependent_to_qutip fuel (slh_H slh) (Some full) t convert_as = Ok H /\
     Forall2 (fun x l => exists op,
                x = LOperator op /\
                _time_dependent_to_qutip fuel op (Some full) t convert_as = Ok l)
             (slh_L slh) Ls).
Proof.
  intros Hfac full.
  assert (Hstatic :
    SLH_to_qutip fuel slh (Some fs) None convert_as =
    match convert_to_qutip fuel (slh_H slh) (Some full) None with
    | Raise e => SLHRaise e
    | Ok h =>
        match mapM (fun L => convert_entry fuel L full)
                   (filter is_Operator_entry (slh_L slh)) with
        | Raise e => SLHRaise e
        | Ok ls => SLHReturn (TDObj h) ls
        end
    end).
  { unfold SLH_to_qutip; subst full.
    destruct (hs_truthy fs); [rewrite (Hfac eq_refl) |]; reflexivity. }
  assert (Hdyn : forall t,
    SLH_to_qutip fuel slh (Some fs) (Some t) convert_as =
    match _time_dependent_to_qutip fuel (slh_H slh) (Some full) t convert_as with
    | Raise e => SLHRaise e
    | Ok h =>
        match mapM (fun L => time_dependent_entry fuel L full t convert_as)
                   (slh_L slh) with
        | Raise e => SLHRaise e
        | Ok ls => SLHReturn h ls
        end
    end).
  { intros t; unfold SLH_to_qutip; subst full.
    destruct (hs_truthy fs); [rewrite (Hfac eq_refl) |]; reflexivity. }
  split.
  - rewrite Hstatic.
    pose proof (SLH_return_iff
                  (convert_to_qutip fuel (slh_H slh) (Some full) None)
                  (mapM (fun L => convert_entry fuel L full)
                        (filter is_Operator_entry (slh_L slh)))
                  TDObj H Ls) as Hiff.
    pose proof (mapM_Forall2_iff (fun L => convert_entry fuel L full) _
                  (filter is_Operator_entry (slh_L slh)) Ls
                  (fun x l => convert_entry_ok fuel x full l)) as Hm.
    split.
    + intros Hr; apply Hiff in Hr as [Hh Hls].
      split; [exact Hh | apply Hm; exact Hls].
    + intros [Hh HF]; apply Hiff; split; [exact Hh | apply Hm; exact HF].
  - intros t; rewrite Hdyn.
    pose proof (SLH_return_iff
                  (_time_dependent_to_qutip fuel (slh_H slh) (Some full) t convert_as)
                  (mapM (fun L => time_dependent_entry fuel L full t convert_as)
                        (slh_L slh))
                  (fun h => h) H Ls) as Hiff.
    cbv beta in Hiff.
    pose proof (mapM_Forall2_iff
                  (fun L => time_dependent_entry fuel L full t convert_as) _
                  (slh_L slh) Ls
                  (fun x l => time_dependent_entry_ok fuel x full t convert_as l)) as Hm.
    split.
    + intros Hr; apply Hiff in Hr as [[h [Hh HH]] Hls]; subst.
      split; [exact Hh | apply Hm; exact Hls].
    + intros [Hh HF]; apply Hiff.
      split; [exists H; auto | apply Hm; exact HF].
Qed.

End SLHProperties.

(** ** Null-space projector of an operand of full rank *)

Section NullSpaceProperties.
Context `{Sc : Scalars} `{Qt : @Qutip Sc} `{Alg : @Algebra Sc}.

Lemma select_rows_none (mask : list bool) (rows : Matrix) :
  forallb negb mask = true -> select_rows mask rows = [].
Proof.
  revert rows; induction mask as [| b mask IH]; intros rows; simpl; [reflexivity |].
  destruct b; simpl; [discriminate |].
  intros H; destruct rows; [reflexivity | apply IH; exact H].
Qed.

Lemma forallb_of_map {A B : Type} (f : B -> bool) (g : A -> B) (l : list A) :
  forallb f (map g l) = forallb (fun x => f (g x)) l.
Proof. induction l as [| a l IH]; simpl; [| rewrite IH]; reflexivity. Qed.

Lemma map_const {A B : Type} (x : B) (l : list A) :
  map (fun _ => x) l = repeat x (List.length l).
Proof. induction l as [| a l IH]; simpl; [| rewrite IH]; reflexivity. Qed.

Lemma gram_no_rows (n : nat) : gram n [] = mat_zeros n n.
Proof.
  unfold gram, mat_zeros; simpl.
  rewrite (map_const (map (fun _ => c0) (seq 0 n))), length_seq.
  rewrite (map_const c0), length_seq; reflexivity.
Qed.

(** X15: when no singular value of the converted operand lies below
    [1e-8] times the first one, the null-space projector is the zero
    matrix with the operand's dimensions, tagged Hermitian. *)
Theorem null_space_projector_full_rank (fuel : nat) (operand : Expr)
  (fs : HilbertSpace) (mapping : option Mapping) (mo : Qobj)
  (U Vh : Matrix) (s0 : C) (s : list C) :
  is_tensor_factor_of (space operand) fs = true ->
  mapping_get mapping (NullSpaceProjector operand) = None ->
  convert_to_qutip fuel operand (Some fs) mapping = Ok (PQobj mo) ->
  dimension fs <= DENSE_DIMENSION_LIMIT ->
  svd (data mo) = (U, s0 :: s, Vh) ->
  forallb (fun x => negb (cltb x (cmul c_1e_8 s0))) (s0 :: s) = true ->
  convert_to_qutip (S fuel) (NullSpaceProjector operand) (Some fs) mapping =
  Ok (PQobj {| data := mat_zeros (ncols Vh) (ncols Vh); dims := dims mo;
               isherm := true; type := "oper" |}).
Proof.
  intros Hf Hm Hv Hd Hsvd Hmask.
  rewrite (convert_nsp_unfold fuel operand fs mapping Hf Hm).
  unfold _convert_operator_operation_to_qutip.
  replace (convert_to_qutip fuel operand (Some fs) mapping) with (Ok (PQobj mo))
    by (symmetry; exact Hv).
  cbn [bind]; apply Nat.leb_le in Hd; rewrite Hd.
  cbn [expect_qobj bind]; rewrite Hsvd.
  rewrite select_rows_none by (rewrite forallb_of_map; exact Hmask).
  rewrite gram_no_rows; reflexivity.
Qed.

End NullSpaceProperties.

Module TimeRuns.
Import GaussModel.

Lemma time_dependent_sum_witness :
  mem_symbol "t"
    (all_symbols (OperatorPlus [Create sA; Destroy sA;
                                ScalarTimesOperator two_t (Destroy sA)])) = true /\
  mapM (fun o => convert_to_qutip 2 o (Some [sA]) None)
       (filter (fun o => negb (mem_symbol "t" (all_symbols o)))
               [Create sA; Destroy sA; ScalarTimesOperator two_t (Destroy sA)]) =
    Ok [PQobj (create 2); PQobj (destroy 2)] /\
  forall l,
    _time_dependent_to_qutip 3
      (OperatorPlus [Create sA; Destroy sA; ScalarTimesOperator two_t (Destroy sA)])
      (Some [sA]) "t" "pyfunc" = Ok (TDList l) ->
    List.length l = 2.
Proof.
  split; [reflexivity |].
  split; [reflexivity |].
  apply (@time_dependent_sum GScalars GQutip GAlgebra 2
           (OperatorPlus [Create sA; Destroy sA; ScalarTimesOperator two_t (Destroy sA)])
           [sA] "t" "pyfunc"
           [Create sA; Destroy sA; ScalarTimesOperator two_t (Destroy sA)]
           [PQobj (create 2); PQobj (destroy 2)] eq_refl eq_refl eq_refl).
Defined.

Lemma time_dependent_structure_error_witness :
  mem_symbol "t" (all_symbols (Phase sA (SSymbol "t"))) = true /\
  _time_dependent_to_qutip 1 (Phase sA (SSymbol "t")) (Some [sA]) "t" "bogus" =
  Raise (mkErr ValueError
           "op cannot be expressed in qutip. It must have the structure op = sum_i f_i(t) * op_i").
Proof.
  split; [reflexivity |].
  apply (@time_dependent_structure_error GScalars GQutip GAlgebra 0
           (Phase sA (SSymbol "t")) (Some [sA]) "t" "bogus" eq_refl).
  - intros operands; discriminate.
  - intros coeff term; discriminate.
Defined.

Lemma null_space_projector_full_rank_witness :
  convert_to_qutip 1 IdentityOperator (Some [sA]) None = Ok (PQobj (qeye 2)) /\
  dimension [sA] <= DENSE_DIMENSION_LIMIT /\
  convert_to_qutip 2 (NullSpaceProjector IdentityOperator) (Some [sA]) None =
  Ok (PQobj {| data := mat_zeros 2 2; dims := ([2], [2]);
               isherm := true; type := "oper" |}).
Proof.
  assert (Hd : dimension [sA] <= DENSE_DIMENSION_LIMIT)
    by (unfold DENSE_DIMENSION_LIMIT; simpl; lia).
  split; [reflexivity |].
  split; [exact Hd |].
  apply (@null_space_projector_full_rank GScalars GQutip GAlgebra 1 IdentityOperator
           [sA] None (qeye 2) (mat_eye 2) (mat_eye 2) (1, 0)%Z [(1, 0)%Z]
           eq_refl eq_refl eq_refl Hd eq_refl eq_refl).
Defined.

End TimeRuns.

(** ** Products with a factor on several local spaces *)

Section NonLocalProducts.
Context `{Sc : Scalars} `{Qt : @Qutip Sc} `{Alg : @Algebra Sc}.

Lemma SExpr_eqb_eq (a b : SExpr) : SExpr_eqb a b = true <-> a = b.
Proof.
  revert b; induction a as [c | x | a1 IH1 a2 IH2 | a1 IH1 a2 IH2];
    intros [d | y | b1 b2 | b1 b2]; simpl;
    try (split; [discriminate | intros H; discriminate H]).
  - rewrite ceqb_eq; split; [intros ->; reflexivity | intros H; inversion H; reflexivity].
  - rewrite String.eqb_eq; split; [intros ->; reflexivity | intros H; inversion H; reflexivity].
  - rewrite andb_true_iff, IH1, IH2.
    split; [intros [-> ->]; reflexivity | intros H; inversion H; auto].
  - rewrite andb_true_iff, IH1, IH2.
    split; [intros [-> ->]; reflexivity | intros H; inversion H; auto].
Qed.

Ltac eqb_hyps IH :=
  repeat match goal with
         | H : _ && _ = true |- _ => apply andb_true_iff in H; destruct H
         end;
  repeat match goal with
         | H : ls_eqb _ _ = true |- _ => apply ls_eqb_eq in H
         | H : hs_eqb _ _ = true |- _ => apply hs_eqb_eq in H
         | H : String.eqb _ _ = true |- _ => apply String.eqb_eq in H
         | H : SExpr_eqb _ _ = true |- _ => apply SExpr_eqb_eq in H
         | H : Expr_eqb _ _ = true |- _ => apply IH in H
         end;
  subst.

Lemma Expr_eqb_true : forall a b, Expr_eqb a b = true -> a = b.
Proof.
  fix IH 1.
  intros a b; destruct a, b; simpl; try discriminate; intros H;
    try (eqb_hyps IH; reflexivity).
  - f_equal; revert operands0 H.
    induction operands as [| x l IHl]; intros [| y m] H; try discriminate H;
      [reflexivity |].
    apply andb_true_iff in H as [Hx Hl].
    f_equal; [apply IH; exact Hx | apply IHl; exact Hl].
  - f_equal; revert operands0 H.
    induction operands as [| x l IHl]; intros [| y m] H; try discriminate H;
      [reflexivity |].
    apply andb_true_iff in H as [Hx Hl].
    f_equal; [apply IH; exact Hx | apply IHl; exact Hl].
Qed.

Lemma Expr_eqb_refl : forall a, Expr_eqb a a = true.
Proof.
  fix IH 1.
  intros a; destruct a; simpl;
    rewrite ?ls_eqb_refl, ?hs_eqb_refl, ?String.eqb_refl, ?IH;
    rewrite ?(proj2 (SExpr_eqb_eq _ _) eq_refl); try reflexivity.
  - induction operands as [| x l IHl]; [reflexivity |].
    rewrite IH; exact IHl.
  - induction operands as [| x l IHl]; [reflexivity |].
    rewrite IH; exact IHl.
Qed.

(** X16: a product with an operand that acts on more than one local space
    is expanded first.  If the expansion returns the product unchanged,
    the conversion fails with the error that the product cannot be
    represented; otherwise the result is the conversion of the expanded
    expression in the same ambient space. *)
Theorem nonlocal_product (fuel : nat) (operands : list Expr) (fs : HilbertSpace)
  (mapping : option Mapping) :
  existsb (fun op => 1 <? List.length (space op)) operands = true ->
  is_tensor_factor_of (space (OperatorTimes operands)) fs = true ->
  mapping_get mapping (OperatorTimes operands) = None ->
  (expand (OperatorTimes operands) = OperatorTimes operands ->
   convert_to_qutip (S fuel) (OperatorTimes operands) (Some fs) mapping =
   Raise (mkErr ValueError
            ("Cannot represent as QuTiP object: " ++
             str_expr (OperatorTimes operands))%string)) /\
  (expand (OperatorTimes operands) <> OperatorTimes operands ->
   convert_to_qutip (S fuel) (OperatorTimes operands) (Some fs) mapping =
   convert_to_qutip fuel (expand (OperatorTimes operands)) (Some fs) mapping).
Proof.
  intros Hnl Hf Hm.
  rewrite (convert_times_unfold fuel operands fs mapping Hf Hm).
  unfold _convert_operator_operation_to_qutip; rewrite Hnl.
  split.
  - intros He; rewrite He, Expr_eqb_refl; reflexivity.
  - intros He.
    destruct (Expr_eqb (expand (OperatorTimes operands)) (OperatorTimes operands)) eqn:E;
      [| reflexivity].
    apply Expr_eqb_true in E; contradiction.
Qed.

End NonLocalProducts.

(** ** The matrix of a local projector-type operator *)

Section LocalSigmaProperties.
Context `{Sc : Scalars} `{Qt : @Qutip Sc} `{Alg : @Algebra Sc}.

Lemma transpose_basis_data (n i : nat) :
  0 < n ->
  mat_transpose (basis_data n i) =
  [map (fun k => if k =? i then c1 else c0) (seq 0 n)].
Proof.
  intros Hn; unfold mat_transpose.
  assert (Hc : ncols (basis_data n i) = 1) by (destruct n; [lia | reflexivity]).
  rewrite Hc; change (seq 0 1) with [0]; cbn [map].
  unfold basis_data; rewrite map_map; reflexivity.
Qed.

Lemma outer_product_entry (n i1 i2 r c : nat) :
  r < n -> c < n ->
  nth c (nth r (mat_mul (basis_data n i1) (mat_dag (basis_data n i2))) []) c0 =
  cadd (cmul (if r =? i1 then c1 else c0) (cconj (if c =? i2 then c1 else c0))) c0.
Proof.
  intros Hr Hc.
  assert (Hn : 0 < n) by lia.
  unfold mat_dag; rewrite (transpose_basis_data n i2 Hn).
  cbn [map]; rewrite map_map.
  unfold mat_mul, mat_transpose; cbn [ncols map].
  rewrite length_map, length_seq.
  unfold basis_data at 1; rewrite !map_map.
  rewrite (nth_map_seq _ n r [] Hr), map_map.
  rewrite (nth_map_seq _ n c c0 Hc).
  rewrite (nth_map_seq _ n c c0 Hc); reflexivity.
Qed.

(** X17: [LocalSigma(hs, j, k)] converts, in its own space, to the square
    matrix with a single one, at the row of the index of label [j] and the
    column of the index of label [k] in the basis of [hs]; a label that is
    not in the basis makes the conversion fail with the error of
    [list.index]. *)
Theorem local_sigma_matrix (fuel : nat) (hs : LocalSpace) (j k : string) (ij ik : nat) :
  (forall x, cadd x c0 = x) ->
  (forall x, cmul c0 x = c0) ->
  cconj c1 = c1 -> cconj c0 = c0 ->
  index String.eqb (ls_basis hs) j = Ok ij ->
  index String.eqb (ls_basis hs) k = Ok ik ->
  let n := ls_dimension hs in
  (exists q,
     convert_to_qutip (S fuel) (LocalSigma hs j k) (Some [hs]) None = Ok (PQobj q) /\
     dims q = ([n], [n]) /\
     forall r c, r < n -> c < n ->
       nth c (nth r (data q) []) c0 = if (r =? ij) && (c =? ik) then c1 else c0) /\
  (forall l e, index String.eqb (ls_basis hs) l = Raise e ->
     convert_to_qutip (S fuel) (LocalSigma hs l k) (Some [hs]) None = Raise e /\
     convert_to_qutip (S fuel) (LocalSigma hs j l) (Some [hs]) None = Raise e /\
     e = mkErr ValueError "x is not in list").
Proof.
  intros Hadd Hmul0 Hc1 Hc0 Hj Hk n.
  assert (Hij : ij < n) by (apply index_lt in Hj; exact Hj).
  assert (Hik : ik < n) by (apply index_lt in Hk; exact Hk).
  split.
  - eexists; split; [| split].
    + rewrite convert_local_own by reflexivity.
      unfold _convert_local_operator_to_qutip; simpl space.
      rewrite hs_eqb_refl, dimension_local; cbn [negb].
      rewrite Hj, Hk; cbn [bind]; unfold basis; fold n.
      apply Nat.ltb_lt in Hij, Hik; rewrite Hij, Hik; cbn [bind].
      unfold qmul; cbn [dims qdag fst snd list_nat_eqb Nat.eqb andb bind].
      reflexivity.
    + reflexivity.
    + intros r c Hr Hc; cbn [data qdag].
      rewrite (outer_product_entry n ij ik r c Hr Hc).
      rewrite Hadd.
      destruct (r =? ij); cbn [andb].
      * rewrite cmul_1_l; destruct (c =? ik); assumption.
      * apply Hmul0.
  - intros l e Hl.
    assert (He : e = mkErr ValueError "x is not in list").
    { clear -Hl; unfold index in Hl; revert Hl; generalize 0.
      induction (ls_basis hs) as [| y b IH]; intros k0; simpl.
      - intros H; inversion H; reflexivity.
      - destruct (String.eqb y l); [discriminate | apply IH]. }
    rewrite !convert_local_own by reflexivity.
    unfold _convert_local_operator_to_qutip; simpl space.
    rewrite hs_eqb_refl, dimension_local; cbn [negb].
    rewrite Hl, Hj; cbn [bind]; unfold basis; fold n.
    apply Nat.ltb_lt in Hij; rewrite Hij; cbn [bind].
    auto.
Qed.

End LocalSigmaProperties.

(** ** Scalar parameters: numbers are required where [complex] is called *)

Section ScalarParameters.
Context `{Sc : Scalars} `{Qt : @Qutip Sc} `{Alg : @Algebra Sc}.

Lemma evalf_symbolic (e : SExpr) : free_symbols e <> [] -> evalf e = None.
Proof.
  induction e as [c | x | a IHa b IHb | a IHa b IHb]; simpl; intros H.
  - contradiction H; reflexivity.
  - reflexivity.
  - destruct (free_symbols a) as [| x l].
    + rewrite (IHb H); destruct (evalf a); reflexivity.
    + rewrite IHa by discriminate; reflexivity.
  - destruct (free_symbols a) as [| x l].
    + rewrite (IHb H); destruct (evalf a); reflexivity.
    + rewrite IHa by discriminate; reflexivity.
Qed.

Lemma complex_symbolic (e : SExpr) :
  free_symbols e <> [] ->
  complex e = Raise (mkErr TypeError "can't convert expression to complex").
Proof.
  intros H; apply evalf_symbolic in H; unfold complex; rewrite H; reflexivity.
Qed.

(** X18: a phase operator with a numeric parameter [phi] converts, in its
    own space of dimension [n], to the diagonal [n x n] matrix whose entry
    at row and column [k] is [cos (phi k) + i sin (phi k)]. *)
Theorem phase_matrix (fuel : nat) (hs : LocalSpace) (phi : SExpr) (p : C) :
  evalf phi = Some p ->
  let n := ls_dimension hs in
  exists q,
    convert_to_qutip (S fuel) (Phase hs phi) (Some [hs]) None = Ok (PQobj q) /\
    dims q = ([n], [n]) /\
    forall r c, r < n -> c < n ->
      nth c (nth r (data q) []) c0 =
      if r =? c then cis (cmul p (c_of_nat r)) else c0.
Proof.
  intros Hp n.
  eexists; split; [| split].
  - rewrite convert_local_own by reflexivity.
    unfold _convert_local_operator_to_qutip; simpl space.
    rewrite hs_eqb_refl, dimension_local; cbn [negb].
    unfold complex; rewrite Hp; cbn [bind]; fold n; reflexivity.
  - cbn [dims Qobj_of_array].
    destruct (mat_diag_shape (map (fun k => cis (cmul p (c_of_nat k))) (seq 0 n)))
      as [Hr Hc].
    rewrite Hr, Hc, length_map, length_seq; reflexivity.
  - intros r c Hr Hc; cbn [data Qobj_of_array].
    unfold mat_diag; rewrite length_map, length_seq.
    rewrite (nth_map_seq _ n r [] Hr).
    rewrite (nth_map_seq _ n c c0 Hc).
    rewrite (nth_map_seq _ n r c0 Hr); reflexivity.
Qed.

(** X19: a parameter that still has a free symbol is rejected where the
    converter calls [complex]: a phase operator with such a parameter, and
    a scalar multiple with such a coefficient whatever its operand is,
    fail with the [TypeError] of the call. *)
Theorem symbolic_parameter_rejected (fuel : nat) (hs : LocalSpace) (c : SExpr)
  (term : Expr) (fs : HilbertSpace) :
  free_symbols c <> [] ->
  is_tensor_factor_of (space term) fs = true ->
  convert_to_qutip (S fuel) (Phase hs c) (Some [hs]) None =
    Raise (mkErr TypeError "can't convert expression to complex") /\
  convert_to_qutip (S fuel) (ScalarTimesOperator c term) (Some fs) None =
    Raise (mkErr TypeError "can't convert expression to complex").
Proof.
  intros Hc Hfs; split.
  - rewrite convert_local_own by reflexivity.
    unfold _convert_local_operator_to_qutip; simpl space.
    rewrite hs_eqb_refl, dimension_local; cbn [negb].
    rewrite (complex_symbolic c Hc); reflexivity.
  - cbn [convert_to_qutip]; unfold convert_step; simpl space.
    rewrite Hfs; cbn [negb mapping_get].
    rewrite (complex_symbolic c Hc); reflexivity.
Qed.

End ScalarParameters.

Module MatrixRuns.
Import GaussModel.

Lemma nonlocal_product_witness :
  existsb (fun op => 1 <? List.length (space op))
          [OperatorSymbol "X" [sA; sB]; Create sA] = true /\
  is_tensor_factor_of
    (space (OperatorTimes [OperatorSymbol "X" [sA; sB]; Create sA])) [sA; sB] = true /\
  expand (OperatorTimes [OperatorSymbol "X" [sA; sB]; Create sA]) =
    OperatorTimes [OperatorSymbol "X" [sA; sB]; Create sA] /\
  convert_to_qutip 1 (OperatorTimes [OperatorSymbol "X" [sA; sB]; Create sA])
                   (Some [sA; sB]) None =
    Raise (mkErr ValueError "Cannot represent as QuTiP object: OperatorTimes").
Proof.
  split; [reflexivity |].
  split; [reflexivity |].
  split; [reflexivity |].
  apply (proj1 (@nonlocal_product GScalars GQutip GAlgebra 0
                  [OperatorSymbol "X" [sA; sB]; Create sA] [sA; sB] None
                  eq_refl eq_refl eq_refl)).
  reflexivity.
Defined.

Lemma gadd_0_r (x : G) : gadd x (0, 0)%Z = x.
Proof. destruct x as [a b]; unfold gadd; simpl fst; simpl snd; f_equal; lia. Qed.

Lemma gmul_0_l (x : G) : gmul (0, 0)%Z x = (0, 0)%Z.
Proof. destruct x as [a b]; unfold gmul; simpl fst; simpl snd; f_equal; lia. Qed.

Lemma local_sigma_matrix_witness :
  index String.eqb (ls_basis sB) "2" = Ok 2 /\
  index String.eqb (ls_basis sB) "0" = Ok 0 /\
  index String.eqb (ls_basis sB) "9" = Raise (mkErr ValueError "x is not in list") /\
  (exists q,
     convert_to_qutip 1 (LocalSigma sB "2" "0") (Some [sB]) None = Ok (PQobj q) /\
     dims q = ([3], [3]) /\
     forall r c, r < 3 -> c < 3 ->
       nth c (nth r (data q) []) (0, 0)%Z =
       if (r =? 2) && (c =? 0) then (1, 0)%Z else (0, 0)%Z) /\
  convert_to_qutip 1 (LocalSigma sB "9" "0") (Some [sB]) None =
    Raise (mkErr ValueError "x is not in list").
Proof.
  split; [reflexivity |].
  split; [reflexivity |].
  split; [reflexivity |].
  destruct (@local_sigma_matrix GScalars GQutip GAlgebra 0 sB "2" "0" 2 0
              gadd_0_r gmul_0_l eq_refl eq_refl eq_refl eq_refl) as [Hq Herr].
  split; [exact Hq |].
  exact (proj1 (Herr "9" _ eq_refl)).
Defined.

Lemma phase_matrix_witness :
  evalf (@SNum GScalars (2, 0)%Z) = Some (2, 0)%Z /\
  exists q,
    convert_to_qutip 1 (Phase sB (@SNum GScalars (2, 0)%Z)) (Some [sB]) None =
      Ok (PQobj q) /\
    dims q = ([3], [3]) /\
    forall r c, r < 3 -> c < 3 ->
      nth c (nth r (data q) []) (0, 0)%Z =
      if r =? c then gmul (2, 0)%Z (Z.of_nat r, 0%Z) else (0, 0)%Z.
Proof.
  split; [reflexivity |].
  exact (@phase_matrix GScalars GQutip GAlgebra 0 sB (@SNum GScalars (2, 0)%Z)
           (2, 0)%Z eq_refl).
Defined.

Lemma symbolic_parameter_rejected_witness :
  free_symbols two_t <> [] /\
  is_tensor_factor_of (space (Destroy sA)) [sA; sB] = true /\
  convert_to_qutip 1 (Phase sA two_t) (Some [sA]) None =
    Raise (mkErr TypeError "can't convert expression to complex") /\
  convert_to_qutip 1 (ScalarTimesOperator two_t (Destroy sA)) (Some [sA; sB]) None =
    Raise (mkErr TypeError "can't convert expression to complex").
Proof.
  assert (Hf : free_symbols two_t <> []) by discriminate.
  split; [exact Hf |].
  split; [reflexivity |].
  exact (@symbolic_parameter_rejected GScalars GQutip GAlgebra 0 sA two_t
           (Destroy sA) [sA; sB] Hf eq_refl).
Defined.

End MatrixRuns.

(** ** Projector-type operators and basis kets *)

Section KetBra.
Context `{Sc : Scalars} `{Qt : @Qutip Sc} `{Alg : @Algebra Sc}.

Lemma basis_ket_own_unfold (fuel : nat) (hs : LocalSpace) (label : string) :
  convert_to_qutip (S fuel) (BasisKet hs label) (Some [hs]) None =
  (i <- index String.eqb (ls_basis hs) label ;;
   k <- basis (ls_dimension hs) i ;;
   Ok (PQobj k)).
Proof.
  simpl; unfold convert_step; simpl; rewrite ls_eqb_refl; simpl.
  unfold _convert_ket_to_qutip; simpl space.
  rewrite hs_eqb_refl, dimension_local; reflexivity.
Qed.

(** X20: in its own space, [LocalSigma(hs, j, k)] converts to the product
    of the converted basis ket of label [j] with the adjoint of the
    converted basis ket of label [k]. *)
Theorem local_sigma_is_ket_bra (fuel : nat) (hs : LocalSpace) (j k : string)
  (kj kk : Qobj) :
  convert_to_qutip (S fuel) (BasisKet hs j) (Some [hs]) None = Ok (PQobj kj) ->
  convert_to_qutip (S fuel) (BasisKet hs k) (Some [hs]) None = Ok (PQobj kk) ->
  convert_to_qutip (S fuel) (LocalSigma hs j k) (Some [hs]) None =
  (r <- qmul kj (qdag kk) ;; Ok (PQobj r)).
Proof.
  rewrite !basis_ket_own_unfold; intros Hj Hk.
  rewrite convert_local_own by reflexivity.
  unfold _convert_local_operator_to_qutip; simpl space.
  rewrite hs_eqb_refl, dimension_local; cbn [negb].
  destruct (index String.eqb (ls_basis hs) j) as [ij | e]; [| discriminate Hj].
  destruct (index String.eqb (ls_basis hs) k) as [ik | e]; [| discriminate Hk].
  cbn [bind] in *.
  destruct (basis (ls_dimension hs) ij) as [bj | e]; [| discriminate Hj].
  destruct (basis (ls_dimension hs) ik) as [bk | e]; [| discriminate Hk].
  cbn [bind] in *.
  inversion Hj; inversion Hk; subst; reflexivity.
Qed.

End KetBra.

Module KetRuns.
Import GaussModel.

Lemma local_sigma_is_ket_bra_witness :
  convert_to_qutip 1 (BasisKet sB "2") (Some [sB]) None =
    Ok (PQobj (@mkQobj GScalars (basis_data 3 2) ([3], [1]) false "ket")) /\
  convert_to_qutip 1 (BasisKet sB "0") (Some [sB]) None =
    Ok (PQobj (@mkQobj GScalars (basis_data 3 0) ([3], [1]) false "ket")) /\
  convert_to_qutip 1 (LocalSigma sB "2" "0") (Some [sB]) None =
    (r <- qmul (@mkQobj GScalars (basis_data 3 2) ([3], [1]) false "ket")
               (qdag (@mkQobj GScalars (basis_data 3 0) ([3], [1]) false "ket")) ;;
     Ok (PQobj r)).
Proof.
  split; [reflexivity |].
  split; [reflexivity |].
  apply (@local_sigma_is_ket_bra GScalars GQutip GAlgebra 0 sB "2" "0"
           (@mkQobj GScalars (basis_data 3 2) ([3], [1]) false "ket")
           (@mkQobj GScalars (basis_data 3 0) ([3], [1]) false "ket")
           eq_refl eq_refl).
Defined.

End KetRuns.

Module SLHRuns.
Import GaussModel.

Lemma SLH_collapse_operators_witness :
  let slh := mkSLH [] [LOperator (Destroy sA); LScalar (@SNum GScalars (2, 0)%Z)]
                   (Create sA) in
  (hs_truthy [sA] = true -> is_tensor_factor_of (slh_space slh) [sA] = true) /\
  SLH_to_qutip 1 slh (Some [sA]) None "pyfunc" =
    SLHReturn (TDObj (PQobj (create 2))) [TDObj (PQobj (destroy 2))] /\
  forall H Ls, SLH_to_qutip 1 slh (Some [sA]) (Some "t") "pyfunc" <> SLHReturn H Ls.
Proof.
  cbv zeta.
  assert (Hfac : hs_truthy [sA] = true ->
                 is_tensor_factor_of
                   (slh_space (mkSLH [] [LOperator (Destroy sA);
                                         LScalar (@SNum GScalars (2, 0)%Z)]
                                     (Create sA))) [sA] = true)
    by reflexivity.
  split; [exact Hfac |].
  split.
  - apply (proj1 (@SLH_collapse_operators GScalars GQutip GAlgebra 1 _ [sA] "pyfunc"
                    (TDObj (PQobj (create 2))) [TDObj (PQobj (destroy 2))] Hfac)).
    split.
    + exists (PQobj (create 2)); split; reflexivity.
    + constructor; [| constructor].
      exists (Destroy sA), (PQobj (destroy 2)); repeat split; reflexivity.
  - intros H Ls Hr.
    apply (proj2 (@SLH_collapse_operators GScalars GQutip GAlgebra 1 _ [sA] "pyfunc"
                    H Ls Hfac) "t") in Hr.
    destruct Hr as [_ HF].
    inversion HF as [| x l xs ls _ Hrest]; subst.
    inversion Hrest as [| x' l' xs' ls' [op [Hop _]] _]; subst.
    discriminate Hop.
Defined.

End SLHRuns.
